(** * occa.okl.oklifier: the Python-to-OKL translator

    A shallow embedding of [src/occa/okl/oklifier.py].  The syntax trees
    are those of Python's [ast] module (the 3.7 grammar the translator is
    written against: [Num], [NameConstant], [Index]); the translator is a
    family of functions in a state-and-exception monad whose state holds
    the scope stack of the running [Oklifier] and the module globals of
    [oklifier.py]. *)

From Stdlib Require Import String Ascii ZArith List Bool DecimalString Lia.
From stdpp Require Import base strings gmap list.

Local Open Scope string_scope.

(** Induction principles of the syntax trees go through the containers
    they are nested in. *)
Scheme All for list.
Scheme All for option.
Scheme All for prod.

(** ** Python's abstract syntax *)

Module ast.

Inductive operator :=
| Add | Sub | Mult | MatMult | Div | Mod | Pow
| LShift | RShift | BitOr | BitXor | BitAnd | FloorDiv.

Inductive unaryop := Invert | Not | UAdd | USub.

Inductive boolop := And | Or.

Inductive cmpop := Eq | NotEq | Lt | LtE | Gt | GtE | Is | IsNot | In | NotIn.

(** The three values a [NameConstant] node can hold. *)
Inductive constant := CTrue | CFalse | CNone.

(** [Num.n]: an integer, or another number given by the text [str]
    returns for it. *)
Inductive number := NInt (z : Z) | NOther (text : string).

(** [Slice] and [ExtSlice] are only ever recognised as "not an
    [Index]"; their fields are never read. *)
Inductive slice (E : Type) := Index (value : E) | Slice | ExtSlice.
Arguments Index {E} value.
Arguments Slice {E}.
Arguments ExtSlice {E}.
Scheme All for slice.

(** Expressions.  The fields the translator never reads ([ctx],
    [keywords]) are left out; expression kinds without a rule of their
    own other than [Str] and [Tuple] are [OtherExpr], named by their
    class. *)
Inductive expr :=
| BoolOp (op : boolop) (values : list expr)
| BinOp (left : expr) (op : operator) (right : expr)
| UnaryOp (op : unaryop) (operand : expr)
| Compare (left : expr) (ops : list cmpop) (comparators : list expr)
| Call (func : expr) (args : list expr)
| Num (n : number)
| Str (s : string)
| NameConstant (value : constant)
| Attribute (value : expr) (attr : string)
| Subscript (value : expr) (sl : slice expr)
| Name (id : string)
| List (elts : list expr)
| Tuple (elts : list expr)
| OtherExpr (kind : string).

Record arg := { arg_name : string; annotation : option expr }.

Record arguments := {
  args : list arg;
  vararg : option arg;
  kwonlyargs : list arg;
  kw_defaults : list (option expr);
  kwarg : option arg;
  defaults : list expr;
}.

(** Statements.  [FunctionDef] and [AsyncFunctionDef] have the same
    fields; the statement kinds that are not listed are [OtherStmt],
    named by their class: the translator reads none of their fields. *)
Inductive stmt :=
| FunctionDef (name : string) (args : arguments) (body : list stmt)
    (decorator_list : list expr) (returns : option expr)
| AsyncFunctionDef (name : string) (args : arguments) (body : list stmt)
    (decorator_list : list expr) (returns : option expr)
| Return (value : option expr)
| Assign (targets : list expr) (value : expr)
| AugAssign (target : expr) (op : operator) (value : expr)
| AnnAssign (target annotation : expr) (value : option expr)
| For (target iter : expr) (body orelse : list stmt)
| While (test : expr) (body orelse : list stmt)
| If (test : expr) (body orelse : list stmt)
| Expr (value : expr)
| Pass | Break | Continue
| OtherStmt (kind : string).

(** Any object the translator can be handed as a node. *)
Inductive node :=
| NModule (body : list stmt)
| NStmt (s : stmt)
| NExpr (e : expr)
| NSlice (s : slice expr)
| NOperator (op : operator)
| NUnaryop (op : unaryop)
| NCmpop (op : cmpop)
| NArguments (a : arguments)
| NArg (a : arg)
| NNone.

(** In the abstract grammar only statements, expressions and [arg]
    carry the attributes [lineno] and [col_offset]; modules, slices,
    operators, [arguments] and [None] have none. *)
Definition has_lineno (n : node) : bool :=
  match n with
  | NStmt _ | NExpr _ | NArg _ => true
  | _ => false
  end.

Definition operator_name (op : operator) : string :=
  match op with
  | Add => "Add" | Sub => "Sub" | Mult => "Mult" | MatMult => "MatMult"
  | Div => "Div" | Mod => "Mod" | Pow => "Pow" | LShift => "LShift"
  | RShift => "RShift" | BitOr => "BitOr" | BitXor => "BitXor"
  | BitAnd => "BitAnd" | FloorDiv => "FloorDiv"
  end.

Definition unaryop_name (op : unaryop) : string :=
  match op with
  | Invert => "Invert" | Not => "Not" | UAdd => "UAdd" | USub => "USub"
  end.

Definition cmpop_name (op : cmpop) : string :=
  match op with
  | Eq => "Eq" | NotEq => "NotEq" | Lt => "Lt" | LtE => "LtE" | Gt => "Gt"
  | GtE => "GtE" | Is => "Is" | IsNot => "IsNot" | In => "In"
  | NotIn => "NotIn"
  end.

Definition expr_name (e : expr) : string :=
  match e with
  | BoolOp _ _ => "BoolOp" | BinOp _ _ _ => "BinOp"
  | UnaryOp _ _ => "UnaryOp" | Compare _ _ _ => "Compare"
  | Call _ _ => "Call" | Num _ => "Num" | Str _ => "Str"
  | NameConstant _ => "NameConstant" | Attribute _ _ => "Attribute"
  | Subscript _ _ => "Subscript" | Name _ => "Name" | List _ => "List"
  | Tuple _ => "Tuple" | OtherExpr kind => kind
  end.

Definition stmt_name (s : stmt) : string :=
  match s with
  | FunctionDef _ _ _ _ _ => "FunctionDef"
  | AsyncFunctionDef _ _ _ _ _ => "AsyncFunctionDef" | Return _ => "Return"
  | Assign _ _ => "Assign" | AugAssign _ _ _ => "AugAssign"
  | AnnAssign _ _ _ => "AnnAssign" | For _ _ _ _ => "For"
  | While _ _ _ => "While" | If _ _ _ => "If" | Expr _ => "Expr"
  | Pass => "Pass" | Break => "Break" | Continue => "Continue"
  | OtherStmt kind => kind
  end.

(** [str(type(node))], as it appears in the dispatcher's message. *)
Definition type_repr (n : node) : string :=
  match n with
  | NNone => "<class 'NoneType'>"
  | _ =>
      "<class '_ast." +:+
      match n with
      | NModule _ => "Module"
      | NStmt s => stmt_name s
      | NExpr e => expr_name e
      | NSlice (Index _) => "Index"
      | NSlice Slice => "Slice"
      | NSlice ExtSlice => "ExtSlice"
      | NOperator op => operator_name op
      | NUnaryop op => unaryop_name op
      | NCmpop op => cmpop_name op
      | NArguments _ => "arguments"
      | NArg _ => "arg"
      | NNone => ""
      end +:+ "'>"
  end.

End ast.

(** ** Exceptions, state and the translator monad *)

(** The exception classes a translation can end in.  [TransformError]
    carries the [message] argument of [raise_error]; the source context
    lines appended to it are not part of the embedding. *)
Inductive exn :=
| TransformError (message : string)
| FunctionClosureError (message : string)
| TypeError (message : string)
| KeyError (key : string)
| AttributeError
| IndexError
| ValueError
| NameError (name : string)
| UnboundLocalError (name : string).

Inductive result (A : Type) :=
| Ok (a : A)
| Raise (e : exn).
Arguments Ok {A} a.
Arguments Raise {A} e.

(** [scope_stack] is [self.scope_stack] of the running [Oklifier]
    (Python appends at the end, so the innermost set is the last one);
    [module_globals] is the global namespace of the module
    [oklifier.py], shared by every [Oklifier] of the process. *)
Record state := {
  scope_stack : list (gset string);
  module_globals : gmap string ast.node;
}.

Definition M (A : Type) : Type := state → result A * state.

#[global] Instance M_ret : MRet M := λ A a st, (Ok a, st).

#[global] Instance M_bind : MBind M := λ A B f m st,
  match m st with
  | (Ok a, st') => f a st'
  | (Raise e, st') => (Raise e, st')
  end.

Definition raise {A} (e : exn) : M A := λ st, (Raise e, st).

(** ** Python helpers *)

(** Name mangling: inside the body of class [cls], an identifier that
    starts with two underscores and does not end with two is replaced
    by [_cls__name], [cls] being stripped of its leading underscores. *)
Fixpoint lstrip_underscores (s : string) : string :=
  match s with
  | String "_" s' => lstrip_underscores s'
  | _ => s
  end.

(** A text is held as the bytes of its UTF-8 encoding: tests of
    equality, of a prefix and of a suffix are the same on the bytes as
    on the code points, and so are concatenation and [join]; the length
    is not. *)
Definition endswith (suffix s : string) : bool :=
  (String.length suffix <=? String.length s)%nat &&
  String.eqb
    (String.substring (String.length s - String.length suffix)
       (String.length suffix) s)
    suffix.

Definition mangle (cls name : string) : string :=
  if String.prefix "__" name && negb (endswith "__" name)
     && negb (String.eqb (lstrip_underscores cls) "")
  then "_" +:+ lstrip_underscores cls +:+ name
  else name.

(** [str(n)] for an integer. *)
Definition str_int (z : Z) : string := NilZero.string_of_int (Z.to_int z).

Definition str_number (n : ast.number) : string :=
  match n with
  | ast.NInt z => str_int z
  | ast.NOther text => text
  end.

(** [len(s)]: the number of code points of the text, which is the
    number of bytes of its encoding that are not continuation bytes
    (those of the form 10xxxxxx). *)
Definition is_continuation_byte (c : ascii) : bool :=
  let 'Ascii _ _ _ _ _ _ b6 b7 := c in b7 && negb b6.

Fixpoint len (s : string) : nat :=
  match s with
  | EmptyString => 0
  | String c s' => if is_continuation_byte c then len s' else S (len s')
  end.

Definition join (sep : string) (l : list string) : string :=
  String.concat sep l.

Definition NL : string := String (ascii_of_nat 10) "".

Fixpoint spaces (n : nat) : string :=
  match n with
  | O => ""
  | S n' => " " +:+ spaces n'
  end.

Definition nonempty (s : string) : bool := negb (String.eqb s "").

Fixpoint enumerate_from {A} (i : nat) (l : list A) : list (nat * A) :=
  match l with
  | [] => []
  | x :: l' => (i, x) :: enumerate_from (S i) l'
  end.

Definition enumerate {A} (l : list A) : list (nat * A) := enumerate_from 0 l.

(** ** The module-level tables *)

Definition INDENT_TAB : string := "  ".

Definition UNARY_OP_FORMATS (op : ast.unaryop) : option (string → string) :=
  match op with
  | ast.Invert => Some (λ value, "~" +:+ value)
  | ast.Not => Some (λ value, "!" +:+ value)
  | ast.UAdd => Some (λ value, "+" +:+ value)
  | ast.USub => Some (λ value, "-" +:+ value)
  end.

Definition BIN_OP_FORMATS (op : ast.operator)
  : option (string → string → string) :=
  match op with
  | ast.Add => Some (λ left right, left +:+ " + " +:+ right)
  | ast.Sub => Some (λ left right, left +:+ " - " +:+ right)
  | ast.Mult => Some (λ left right, left +:+ " * " +:+ right)
  | ast.Div => Some (λ left right, left +:+ " / " +:+ right)
  | ast.Mod => Some (λ left right, left +:+ " % " +:+ right)
  | ast.Pow => Some (λ left right, "pow(" +:+ left +:+ ", " +:+ right +:+ ")")
  | ast.LShift => Some (λ left right, left +:+ " << " +:+ right)
  | ast.RShift => Some (λ left right, left +:+ " >> " +:+ right)
  | ast.BitOr => Some (λ left right, left +:+ " | " +:+ right)
  | ast.BitAnd => Some (λ left right, left +:+ " & " +:+ right)
  | ast.FloorDiv =>
      Some (λ left right, "floor(" +:+ left +:+ " / " +:+ right +:+ ")")
  | ast.MatMult | ast.BitXor => None
  end.

Definition AUG_OP_FORMATS (op : ast.operator)
  : option (string → string → string) :=
  match op with
  | ast.Add => Some (λ left right, left +:+ " += " +:+ right)
  | ast.Sub => Some (λ left right, left +:+ " -= " +:+ right)
  | ast.Mult => Some (λ left right, left +:+ " *= " +:+ right)
  | ast.Div => Some (λ left right, left +:+ " /= " +:+ right)
  | ast.Mod => Some (λ left right, left +:+ " %= " +:+ right)
  | ast.Pow =>
      Some (λ left right,
            left +:+ " = pow(" +:+ left +:+ ", " +:+ right +:+ ")")
  | ast.LShift => Some (λ left right, left +:+ " << " +:+ right)
  | ast.RShift => Some (λ left right, left +:+ " >>= " +:+ right)
  | ast.BitOr => Some (λ left right, left +:+ " |= " +:+ right)
  | ast.BitAnd => Some (λ left right, left +:+ " &= " +:+ right)
  | ast.FloorDiv =>
      Some (λ left right,
            left +:+ " = floor(" +:+ left +:+ " /= " +:+ right +:+ ")")
  | ast.MatMult | ast.BitXor => None
  end.

(** While [stringify_Compare] runs, its local [ops] holds first the
    operator classes and then their target strings; both can be looked
    up in [COMPARE_OP_STR], whose keys are classes only. *)
Inductive op_key :=
| OpClass (op : ast.cmpop)
| OpStr (s : string).

Definition COMPARE_OP_STR (k : op_key) : option string :=
  match k with
  | OpClass ast.Eq => Some "=="
  | OpClass ast.NotEq => Some "!="
  | OpClass ast.Lt => Some "<"
  | OpClass ast.Gt => Some ">"
  | OpClass ast.GtE => Some ">="
  | OpClass ast.Is => Some "=="
  | OpClass ast.IsNot => Some "!="
  | OpClass (ast.LtE | ast.In | ast.NotIn) => None
  | OpStr _ => None
  end.

(** [str] of an entry of [ops], as [format] renders it. *)
Definition op_key_str (k : op_key) : string :=
  match k with
  | OpClass op => ast.type_repr (ast.NCmpop op)
  | OpStr s => s
  end.

(** [repr] of a key, as a [KeyError] shows it. *)
Definition op_key_repr (k : op_key) : string :=
  match k with
  | OpClass op => ast.type_repr (ast.NCmpop op)
  | OpStr s => "'" +:+ s +:+ "'"
  end.

Definition VALID_GLOBAL_NAMES : gset string := {[ "okl" ]}.

Definition VALID_BUILTINS : gset string := {[ "range"; "len" ]}.

Definition OKL_DECORATORS (decorator_str : string) : option string :=
  if String.eqb decorator_str "@okl.kernel" then Some "@kernel" else None.

(** ** Error reporting *)

(** The name the methods of class [Oklifier] use for the global they
    declare as [global __last_error_node]. *)
Definition last_error_name : string := mangle "Oklifier" "__last_error_node".

(** The namespace of the module once it is imported: the statement
    [__last_error_node = None] stands outside the class. *)
Definition initial_module_globals : gmap string ast.node :=
  {[ "__last_error_node" := ast.NNone ]}.

Definition initial_state : state :=
  {| scope_stack := []; module_globals := initial_module_globals |}.

Definition set_global (name : string) (value : ast.node) : M unit :=
  λ st, (Ok tt, {| scope_stack := scope_stack st;
                   module_globals := <[name := value]> (module_globals st) |}).

Definition get_global (name : string) : M ast.node :=
  λ st, match module_globals st !! name with
        | Some value => (Ok value, st)
        | None => (Raise (NameError name), st)
        end.

Definition get_last_error_node : M ast.node := get_global last_error_name.

(** [raise_error]: the node is stored first, then its position is read,
    which fails on a node that has none. *)
Definition raise_error {A} (node : ast.node) (message : string) : M A :=
  set_global last_error_name node;;
  if ast.has_lineno node
  then raise (TransformError message)
  else raise AttributeError.

(** ** Scope tracking *)

Definition push_scope : M unit :=
  λ st, (Ok tt, {| scope_stack := (scope_stack st ++ [∅])%list;
                   module_globals := module_globals st |}).

Definition pop_scope : M unit :=
  λ st, match scope_stack st with
        | [] => (Raise IndexError, st)
        | _ => (Ok tt, {| scope_stack := removelast (scope_stack st);
                         module_globals := module_globals st |})
        end.

Definition add_to_scope (var_name : string) : M unit :=
  λ st, match last (scope_stack st) with
        | None => (Raise IndexError, st)
        | Some top =>
            (Ok tt, {| scope_stack :=
                         (removelast (scope_stack st) ++ [{[ var_name ]} ∪ top])%list;
                       module_globals := module_globals st |})
        end.

Fixpoint is_defined_in (stack : list (gset string)) (var_name : string) : bool :=
  match stack with
  | [] => false
  | scope :: stack' =>
      if bool_decide (var_name ∈ scope) then true
      else is_defined_in stack' var_name
  end.

Definition is_defined (var_name : string) : M bool :=
  λ st, (Ok (is_defined_in (scope_stack st) var_name), st).

(** ** Expressions *)

Section translator.

(** [self.globals]: the captured globals and their type names. *)
Context (globals : gmap string string).

(** [var or name] *)
Definition stringify_Name (id : string) : string :=
  match globals !! id with
  | Some var => if nonempty var then var else id
  | None => id
  end.

Definition stringify_constant (value : ast.constant) : option string :=
  match value with
  | ast.CTrue => Some "true"
  | ast.CFalse => Some "false"
  | ast.CNone => Some "NULL"
  end.

Definition stringify_NameConstant (node : ast.expr) (value : ast.constant)
  : M string :=
  match stringify_constant value with
  | None => raise_error (ast.NExpr node) "Cannot handle NameConstant"
  | Some value => mret value
  end.

(** One round of the loop of [stringify_Compare]: the operator of
    this round is checked, then the whole of [ops] is looked up anew
    and the operands are rendered anew. *)
Definition compare_lookup (k : op_key) : M op_key :=
  match COMPARE_OP_STR k with
  | Some s => mret (OpStr s)
  | None => raise (KeyError (op_key_repr k))
  end.

Definition compare_loop (render_values : M (list string))
  : list ast.cmpop → list op_key → option (list string) →
    M (list op_key * option (list string)) :=
  fix go rest ops values :=
    match rest with
    | [] => mret (ops, values)
    | op :: rest' =>
        match COMPARE_OP_STR (OpClass op) with
        | None =>
            raise_error (ast.NCmpop op) "Cannot handle comparison operator"
        | Some _ =>
            ops' ← mapM compare_lookup ops;
            values' ← render_values;
            go rest' ops' (Some values')
        end
    end.

Definition compare_pair (ops : list op_key)
    (item : nat * (string * string)) : M string :=
  let '(index, (lhs, rhs)) := item in
  match ops !! index with
  | None => raise IndexError
  | Some op => mret (lhs +:+ " " +:+ op_key_str op +:+ " " +:+ rhs)
  end.

Definition compare_join (ops : list op_key) (values : option (list string))
  : M string :=
  match values with
  | None => raise (UnboundLocalError "values")
  | Some values =>
      parts ← mapM (compare_pair ops)
                (enumerate (zip (removelast values) (tail values)));
      mret (join " && " parts)
  end.

Fixpoint stringify_expr (node : ast.expr) : M string :=
  match node with
  | ast.Attribute value attr =>
      name ← stringify_expr value;
      mret (name +:+ "." +:+ attr)
  | ast.BinOp lhs op rhs =>
      match BIN_OP_FORMATS op with
      | None => raise_error (ast.NOperator op) "Unable to handle operator"
      | Some str_format =>
          lhs' ← stringify_expr lhs;
          rhs' ← stringify_expr rhs;
          mret (str_format lhs' rhs')
      end
  | ast.BoolOp op values =>
      let op := match op with ast.And => " && " | ast.Or => " || " end in
      values' ← mapM stringify_expr values;
      mret (join op values')
  | ast.Call func args =>
      args' ← mapM stringify_expr args;
      func' ← stringify_expr func;
      mret (func' +:+ "(" +:+ join ", " args' +:+ ")")
  | ast.Compare lhs ops comparators =>
      '(ops', values) ←
        compare_loop
          (lhs' ← stringify_expr lhs;
           comparators' ← mapM stringify_expr comparators;
           mret (lhs' :: comparators'))
          ops (OpClass <$> ops) None;
      compare_join ops' values
  | ast.List elts =>
      entries ← mapM stringify_expr elts;
      mret ("{" +:+ join ", " entries +:+ "}")
  | ast.Name id => mret (stringify_Name id)
  | ast.NameConstant value => stringify_NameConstant node value
  | ast.Num n => mret (str_number n)
  | ast.Subscript value sl =>
      match sl with
      | ast.Index index =>
          value' ← stringify_expr value;
          index' ← stringify_expr index;
          mret (value' +:+ "[" +:+ index' +:+ "]")
      | _ => raise_error (ast.NSlice sl) "Can only handle single access slices"
      end
  | ast.UnaryOp op operand =>
      match UNARY_OP_FORMATS op with
      | None => raise_error (ast.NUnaryop op) "Unable to handle operator"
      | Some str_format =>
          operand' ← stringify_expr operand;
          mret (str_format operand')
      end
  | ast.Str _ | ast.Tuple _ | ast.OtherExpr _ =>
      raise_error (ast.NExpr node)
        ("Unable to handle node type " +:+ ast.type_repr (ast.NExpr node))
  end.

(** ** Type annotations *)

Definition py_to_c_type (type_name : string) : string := type_name.

(** [stringify_annotation] on a node that is not [None];
    [split_subscript] and [stringify_list_annotation] are unfolded in
    place, in the [Subscript] case. *)
Fixpoint stringify_annotation_node (node : ast.expr) (var_name : string)
  : M string :=
  match node with
  | ast.Name id =>
      let type_str := py_to_c_type (stringify_Name id) in
      if nonempty var_name then mret (type_str +:+ " " +:+ var_name)
      else mret type_str
  | ast.NameConstant value =>
      node_str ← stringify_NameConstant node value;
      if String.eqb node_str "NULL" then
        if nonempty var_name then mret ("void " +:+ var_name)
        else mret "void"
      else raise_error (ast.NExpr node) "Cannot handle type annotation"
  | ast.Subscript value sl =>
      match sl with
      | ast.Index index =>
          value_str ← stringify_expr value;
          if String.eqb value_str "List" then
            match index with
            | ast.Tuple elts =>
                match elts with
                | [] => raise ValueError
                | type_node :: indices =>
                    type_str ← stringify_annotation_node type_node "";
                    arrays ← mapM (λ index,
                                     index' ← stringify_expr index;
                                     mret ("[" +:+ index' +:+ "]"))
                               indices;
                    mret (type_str +:+ " " +:+ var_name +:+ join "" arrays)
                end
            | _ =>
                type_str ← stringify_annotation_node index "";
                let type_str :=
                  if endswith "*" type_str then type_str
                  else type_str +:+ " " in
                mret (type_str +:+ "*" +:+ var_name)
            end
          else if String.eqb value_str "Const" then
            inner ← stringify_annotation_node index var_name;
            mret ("const " +:+ inner)
          else if String.eqb value_str "Exclusive" then
            inner ← stringify_annotation_node index var_name;
            mret ("@exclusive " +:+ inner)
          else if String.eqb value_str "Shared" then
            inner ← stringify_annotation_node index var_name;
            mret ("@shared " +:+ inner)
          else raise_error (ast.NExpr node) "Cannot handle type annotation"
      | _ => raise_error (ast.NSlice sl) "Can only handle single access slices"
      end
  | _ => raise_error (ast.NExpr node) "Cannot handle type annotation"
  end.

Definition stringify_annotation (node : option ast.expr) (var_name : string)
  : M string :=
  match node with
  | None => mret var_name
  | Some node => stringify_annotation_node node var_name
  end.

(** ** Function signatures *)

(** The loop of [stringify_Arguments] over the enumerated arguments. *)
Fixpoint arguments_loop (arg_count : nat) (indent : string)
    (items : list (nat * ast.arg)) (args_str : string) : M string :=
  match items with
  | [] => mret args_str
  | (index, arg) :: items' =>
      let arg_name := ast.arg_name arg in
      arg_str ← stringify_annotation (ast.annotation arg) arg_name;
      (if String.eqb arg_str arg_name
       then raise_error (ast.NArg arg)
              "Arguments must have a type annotation"
       else mret tt);;
      let args_str := args_str +:+ arg_str in
      let args_str :=
        if (index <? arg_count - 1)%nat
        then args_str +:+ "," +:+ NL +:+ indent
        else args_str in
      arguments_loop arg_count indent items' args_str
  end.

Definition stringify_Arguments (a : ast.arguments) (indent : string)
  : M string :=
  (if ast.kwarg a is Some _
   then raise_error (ast.NArguments a) "Cannot handle **kwargs"
   else mret tt);;
  (if ast.vararg a is Some _
   then raise_error (ast.NArguments a) "Cannot handle *args"
   else mret tt);;
  (if negb (bool_decide (ast.defaults a = []))
      || negb (bool_decide (ast.kw_defaults a = []))
   then raise_error (ast.NArguments a) "Cannot handle default arguments yet"
   else mret tt);;
  let args := (ast.args a ++ ast.kwonlyargs a)%list in
  let arg_count := length args in
  arguments_loop arg_count indent (enumerate args) "".

(** The loop of [stringify_function_signature] over the decorators. *)
Fixpoint decorators_loop (items : list ast.expr) (decorators : string)
  : M string :=
  match items with
  | [] => mret decorators
  | decorator :: items' =>
      attr ← stringify_expr decorator;
      match OKL_DECORATORS ("@" +:+ attr) with
      | None => raise_error (ast.NExpr decorator) "Cannot handle decorator"
      | Some okl_decorator =>
          decorators_loop items' (decorators +:+ okl_decorator +:+ " ")
      end
  end.

(** The node is read through its attributes [name], [returns],
    [decorator_list] and [args], which the two kinds of function
    definition have; on another statement the first one that is missing
    ends the call in an [AttributeError], before anything is written. *)
Definition stringify_function_signature (node : ast.stmt) (semicolon : bool)
  : M string :=
  match node with
  | ast.FunctionDef name args _ decorator_list returns
  | ast.AsyncFunctionDef name args _ decorator_list returns =>
      returns' ← stringify_annotation returns "";
      (if nonempty returns' then mret tt
       else raise_error (ast.NStmt node)
              "Function must have a return value type");;
      decorators ← decorators_loop decorator_list "";
      let func_str := decorators +:+ returns' +:+ " " +:+ name +:+ "(" in
      args' ← stringify_Arguments args (spaces (len func_str));
      let func_str := func_str +:+ args' +:+ ")" in
      mret (if semicolon then func_str +:+ ";" else func_str)
  | _ => raise AttributeError
  end.

(** ** Counted loops *)

(** A bound of a loop, as [get_range] could return it: an integer or
    a string. *)
Inductive bound :=
| BInt (z : Z)
| BStr (s : string).

Definition str_bound (b : bound) : string :=
  match b with
  | BInt z => str_int z
  | BStr s => s
  end.

Definition get_range (node : ast.expr) : bound * bound * bound :=
  (BInt 0, BInt 10, BInt 1).

Definition get_okl_range (node : ast.expr) : bound * bound * bound :=
  (BInt 0, BInt 10, BInt 1).

Definition split_for_iter (node : ast.expr) : M (bound * bound * bound) :=
  node_str ← stringify_expr node;
  if String.prefix "range" node_str then mret (get_range node)
  else if String.prefix "okl.range" node_str then mret (get_okl_range node)
  else raise_error (ast.NExpr node) "Unable to transform this iterable".

(** The step of the loop header, from the [step] that
    [split_for_iter] returned ([stringify_For], the branches on
    [isinstance(step, int)] and [isinstance(step, str)]). *)
Definition for_step (iter : ast.expr) (index : string) (step : bound)
  : M string :=
  match step with
  | BInt step =>
      if (step =? 0)%Z then
        raise_error (ast.NExpr iter)
          "Cannot have for-loop with a step size of 0"
      else if (step >? 0)%Z then
        if (step =? 1)%Z then mret ("++" +:+ index)
        else mret (index +:+ " += " +:+ str_int step)
      else
        if (step =? -1)%Z then mret ("--" +:+ index)
        else mret (index +:+ " -= " +:+ str_int (- step))
  | BStr step => mret (index +:+ " += " +:+ step)
  end.

Definition for_header (index : string) (start end_ : bound) (step : string)
  : string :=
  "for (int " +:+ index +:+ " = " +:+ str_bound start +:+ "; "
  +:+ index +:+ " < " +:+ str_bound end_ +:+ "; " +:+ step +:+ ")".

(** ** Statements and blocks *)

(** [stringify_block], given the rendering of its nodes. *)
Definition stringify_block_of (nodes_str : M (list string)) (indent : string)
  : M string :=
  push_scope;;
  nodes_str ← nodes_str;
  let block_str :=
    join NL (map (λ node_str, indent +:+ node_str)
               (List.filter nonempty nodes_str)) in
  pop_scope;;
  mret block_str.

(** [stringify_body], given the block. *)
Definition stringify_body_of (block : M string) (indent : string) : M string :=
  body ← block;
  if nonempty body
  then mret (" {" +:+ NL +:+ body +:+ NL +:+ indent +:+ "}")
  else mret " {}".

Definition is_Name (node : ast.expr) : bool :=
  match node with
  | ast.Name _ => true
  | _ => false
  end.

Fixpoint stringify_stmt (node : ast.stmt) (indent : string) {struct node}
  : M string :=
  let stringify_block (nodes : list ast.stmt) (indent : string) :=
    stringify_block_of (mapM (λ node, stringify_stmt node indent) nodes)
      indent in
  let stringify_body (nodes : list ast.stmt) (indent : string) :=
    stringify_body_of (stringify_block nodes (indent +:+ INDENT_TAB))
      indent in
  match node with
  | ast.AnnAssign target annotation value =>
      var_name ← stringify_expr target;
      add_to_scope var_name;;
      node_str ← stringify_annotation (Some annotation) var_name;
      match value with
      | Some value =>
          value' ← stringify_expr value;
          mret ((node_str +:+ " = " +:+ value') +:+ ";")
      | None => mret (node_str +:+ ";")
      end
  | ast.Assign targets value =>
      match targets with
      | [var] =>
          var_str ← stringify_expr var;
          defined ← is_defined var_str;
          if is_Name var && negb defined
          then raise_error (ast.NStmt node) "Cannot handle untyped variables"
          else
            rhs ← stringify_expr value;
            mret (var_str +:+ " = " +:+ rhs +:+ ";")
      | _ =>
          raise_error (ast.NStmt node)
            "Cannot handle assignment of more than 1 value"
      end
  | ast.AugAssign target op value =>
      match AUG_OP_FORMATS op with
      | None => raise_error (ast.NOperator op) "Unable to handle operator"
      | Some str_format =>
          lhs ← stringify_expr target;
          rhs ← stringify_expr value;
          mret (str_format lhs rhs)
      end
  | ast.Break => mret "break;"
  | ast.Continue => mret "continue;"
  | ast.Expr value => stringify_expr value
  | ast.For target iter body _ =>
      (if is_Name target then mret tt
       else raise_error (ast.NExpr target)
              "Can only handle one variable for the for-loop index");;
      index ← stringify_expr target;
      '(start, end_, step) ← split_for_iter iter;
      step' ← for_step iter index step;
      body' ← stringify_body body indent;
      mret (for_header index start end_ step' +:+ body')
  | ast.FunctionDef _ _ body _ _ =>
      func_str ← stringify_function_signature node false;
      body' ← stringify_body body indent;
      mret (func_str +:+ body')
  | ast.If test body orelse =>
      test' ← stringify_expr test;
      body' ← stringify_body body indent;
      let if_str := ("if (" +:+ test' +:+ ")") +:+ body' in
      match orelse with
      | [] => mret if_str
      | [ast.If _ _ _ as elif] =>
          else' ← stringify_stmt elif indent;
          mret (if_str +:+ NL +:+ indent +:+ "else " +:+ else')
      | _ =>
          else' ← stringify_body orelse indent;
          mret (if_str +:+ NL +:+ indent +:+ "else " +:+ else')
      end
  | ast.Pass => mret ""
  | ast.Return value =>
      match value with
      | Some value =>
          value' ← stringify_expr value;
          mret ("return " +:+ value' +:+ ";")
      | None =>
          raise_error ast.NNone
            ("Unable to handle node type " +:+ ast.type_repr ast.NNone)
      end
  | ast.While test body orelse =>
      match orelse with
      | after :: _ =>
          raise_error (ast.NStmt after) "Cannot handle statement after while"
      | [] =>
          test' ← stringify_expr test;
          body' ← stringify_body body indent;
          mret (("while (" +:+ test' +:+ ")") +:+ body')
      end
  | ast.AsyncFunctionDef _ _ _ _ _ | ast.OtherStmt _ =>
      raise_error (ast.NStmt node)
        ("Unable to handle node type " +:+ ast.type_repr (ast.NStmt node))
  end.

Definition stringify_block (nodes : list ast.stmt) (indent : string)
  : M string :=
  stringify_block_of (mapM (λ node, stringify_stmt node indent) nodes) indent.

Definition stringify_body (nodes : list ast.stmt) (indent : string)
  : M string :=
  stringify_body_of (stringify_block nodes (indent +:+ INDENT_TAB)) indent.

(** The dispatcher: the rule registered for the class of the node,
    or an error. *)
Definition stringify_node (node : ast.node) (indent : string) : M string :=
  match node with
  | ast.NModule body => stringify_block body indent
  | ast.NStmt s => stringify_stmt s indent
  | ast.NExpr e => stringify_expr e
  | ast.NSlice (ast.Index value) => stringify_expr value
  | _ =>
      raise_error node ("Unable to handle node type " +:+ ast.type_repr node)
  end.

End translator.

(** ** Closure inspection and emission *)

(** The classes of the values a function can capture, as far as
    [VALID_GLOBAL_VALUE_TYPES] tells them apart. *)
Inductive pytype :=
| NoneType | py_bool | py_int | py_float
| np_bool_
| np_int8 | np_uint8 | np_int16 | np_uint16
| np_int32 | np_uint32 | np_int64 | np_uint64
| np_float32 | np_float64
| other_type (name : string).

Definition VALID_GLOBAL_VALUE_TYPES (t : pytype) : option string :=
  match t with
  | NoneType => Some "void"
  | py_bool => Some "bool"
  | py_int => Some "int"
  | py_float => Some "double"
  | np_bool_ => Some "bool"
  | np_int8 => Some "char"
  | np_uint8 => Some "char"
  | np_int16 => Some "short"
  | np_uint16 => Some "short"
  | np_int32 => Some "int"
  | np_uint32 => Some "int"
  | np_int64 => Some "long"
  | np_uint64 => Some "long"
  | np_float32 => Some "float"
  | np_float64 => Some "double"
  | other_type _ => None
  end.

(** A captured value: an instance of a class that is not the class of
    functions, or a function. *)
Inductive value (F : Type) :=
| Instance (type : pytype)
| Function (func : F).
Arguments Instance {F} type.
Arguments Function {F} func.
Scheme All for value.

(** A function, by what [inspect.getclosurevars] and
    [ast.parse(inspect.getsource(...))] return for it: the globals and
    builtins it names, in the order of the dictionaries, and the body of
    the module its source parses to.  The closure graph is unfolded into
    a tree: the translator keeps no table of the helpers it has seen. *)
Inductive pyfunction :=
| Def (closure_globals : list (string * value pyfunction))
    (closure_builtins : list string) (source_body : list ast.stmt).

Definition closure_globals (func : pyfunction) :=
  let 'Def globals _ _ := func in globals.
Definition closure_builtins (func : pyfunction) :=
  let 'Def _ builtins _ := func in builtins.
Definition source_body (func : pyfunction) :=
  let 'Def _ _ body := func in body.

(** An entry of [self.functions]. *)
Record function_entry := {
  signature : string;
  source : string;
}.

(** The fields of an [Oklifier] that are set once by [__init__]
    ([self.source] only feeds the context lines of error messages). *)
Record Oklifier := {
  globals : gmap string string;
  functions : list (string * function_entry);
  root : ast.node;
}.

(** [d[k] = v] on a dictionary, which keeps the order of first
    insertion. *)
Fixpoint dict_set {V} (k : string) (v : V) (d : list (string * V))
  : list (string * V) :=
  match d with
  | [] => [(k, v)]
  | (k', v') :: d' =>
      if String.eqb k' k then (k', v) :: d' else (k', v') :: dict_set k v d'
  end.

(** Run the methods of a newly made [Oklifier], whose scope stack is
    its own and starts empty. *)
Definition on_new_instance {A} (m : M A) : M A :=
  λ st,
    let '(r, st') :=
      m {| scope_stack := []; module_globals := module_globals st |} in
    (r, {| scope_stack := scope_stack st;
           module_globals := module_globals st' |}).

Definition to_str (self : Oklifier) : M string :=
  let functions := (functions self).*2 in
  root_str ← stringify_node (globals self) (root self) "";
  mret (join (NL +:+ NL)
          ((signature <$> functions) ++ (source <$> functions)
           ++ [root_str])%list).

(** [oklifier.stringify_function_signature(node=oklifier.root.body[0],
    semicolon=True)] *)
Definition helper_signature (oklifier : Oklifier) : M string :=
  match root oklifier with
  | ast.NModule (node :: _) =>
      stringify_function_signature (globals oklifier) node true
  | ast.NModule [] => raise IndexError
  | _ => raise AttributeError
  end.

(** The entry stored for a captured function, [make] being the call
    [Oklifier(value)]. *)
Definition helper_entry (make : M Oklifier) : M function_entry :=
  on_new_instance
    (oklifier ← make;
     signature ← helper_signature oklifier;
     source ← to_str oklifier;
     mret {| signature := signature; source := source |}).

Definition check_builtins : list string → M unit :=
  fix go builtins :=
    match builtins with
    | [] => mret tt
    | builtin :: builtins' =>
        if bool_decide (builtin ∈ VALID_BUILTINS) then go builtins'
        else raise (FunctionClosureError
                      ("Unable to transform builtin: " +:+ builtin))
    end.

(** [if type_str:] holds of a string that is not empty. *)
Definition truthy (type_str : option string) : option string :=
  match type_str with
  | Some type_str => if nonempty type_str then Some type_str else None
  | None => None
  end.

(** The first loop of [inspect_function_closure], over the captured
    globals; [Oklifier_] is the constructor [Oklifier] on functions. *)
Definition inspect_globals {F} (Oklifier_ : F → M Oklifier)
  : list (string * value F) → gmap string string →
    list (string * function_entry) →
    M (gmap string string * list (string * function_entry)) :=
  fix go items globals functions :=
    match items with
    | [] => mret (globals, functions)
    | (name, value) :: items' =>
        let type_str :=
          match value with
          | Instance type => VALID_GLOBAL_VALUE_TYPES type
          | Function _ => None
          end in
        match truthy type_str, value with
        | Some type_str, _ =>
            go items' (<[name := type_str]> globals) functions
        | None, Function value =>
            entry ← helper_entry (Oklifier_ value);
            go items' globals (dict_set name entry functions)
        | None, Instance _ =>
            if bool_decide (name ∈ VALID_GLOBAL_NAMES)
            then go items' globals functions
            else raise (FunctionClosureError
                          ("Unable to transform non-local variable: "
                           +:+ name))
        end
    end.

(** [inspect_function_closure]: the globals, then the builtins; the
    result is what the method leaves in [self.globals] and
    [self.functions]. *)
Definition inspect_function_closure {F} (Oklifier_ : F → M Oklifier)
    (closure_globals : list (string * value F))
    (closure_builtins : list string)
  : M (gmap string string * list (string * function_entry)) :=
  '(globals, functions) ← inspect_globals Oklifier_ closure_globals ∅ [];
  check_builtins closure_builtins;;
  mret (globals, functions).

(** [Oklifier(func)] for a function: the closure is inspected, then
    the source is read and parsed. *)
Fixpoint Oklifier_of_function (func : pyfunction) : M Oklifier :=
  match func with
  | Def closure_globals closure_builtins source_body =>
      '(globals, functions) ←
        inspect_function_closure Oklifier_of_function closure_globals
          closure_builtins;
      mret {| globals := globals; functions := functions;
              root := ast.NModule source_body |}
  end.

(** The objects [Oklifier(obj)] tells apart. *)
Inductive pyobject :=
| AST (node : ast.node)
| FunctionObject (func : pyfunction)
| OtherObject.

Definition Oklifier_init (obj : pyobject) : M Oklifier :=
  match obj with
  | AST node => mret {| globals := ∅; functions := []; root := node |}
  | FunctionObject func => Oklifier_of_function func
  | OtherObject => raise (TypeError "Unable to oklify object")
  end.

(** [py2okl(obj)] for one object: [Oklifier(obj).to_str()]. *)
Definition py2okl (obj : pyobject) : M string :=
  on_new_instance (self ← Oklifier_init obj; to_str self).

(** * Vocabulary of the properties, and the programs they are tried on *)

(** ** Runs and their outcomes *)

(** What is left of a result once its value is forgotten. *)
Definition outcome {A} (r : result A) : option exn :=
  match r with
  | Ok _ => None
  | Raise e => Some e
  end.

(** [R st o st'] relates the state before a run, its outcome and the
    state after it; a computation respects [R] when all its runs are
    related by it. *)
Definition respects (R : state → option exn → state → Prop) {A} (m : M A)
  : Prop :=
  ∀ st, R st (outcome (m st).1) (m st).2.

(** The exceptions that do not come out of [raise_error] on a node with
    a position. *)
Definition plain (e : exn) : Prop := ∀ message, e ≠ TransformError message.

(** The state [raise_error] leaves, and the exception it raises. *)
Definition record_error (node : ast.node) (st : state) : state :=
  {| scope_stack := scope_stack st;
     module_globals := <[last_error_name := node]> (module_globals st) |}.

Definition error_of (node : ast.node) (message : string) : exn :=
  if ast.has_lineno node then TransformError message else AttributeError.

(** A computation is quiet when a run that succeeds leaves the state as
    it found it. *)
Definition quiet_rel : state → option exn → state → Prop :=
  λ st o st', o = None → st' = st.

Definition quiet {A} (m : M A) : Prop :=
  ∀ st a st', m st = (Ok a, st') → st' = st.

(** A computation is tracked when a run that succeeds leaves the module
    globals as they were, and a run that fails either leaves them as
    they were, with an exception that is not a [TransformError], or has
    stored one node under the mangled name and fails with the exception
    [raise_error] raises for that node. *)
Definition reported (node : ast.node) (e : exn) : Prop :=
  ∃ message, e = error_of node message.

Definition tracked_rel : state → option exn → state → Prop :=
  λ st o st',
    match o with
    | None => module_globals st' = module_globals st
    | Some e =>
        (plain e ∧ module_globals st' = module_globals st)
        ∨ (∃ node, reported node e
                   ∧ module_globals st'
                     = <[last_error_name := node]> (module_globals st))
    end.

Definition tracked {A} (m : M A) : Prop := respects tracked_rel m.

(** ** The scope stack *)

Definition with_stack (stack : list (gset string)) (st : state) : state :=
  {| scope_stack := stack; module_globals := module_globals st |}.

(** What a statement that was translated has done to the state: an
    annotated assignment has added the text of its target to the
    innermost set, any other statement has left the state as it was. *)
Definition declares (globals : gmap string string) (node : ast.stmt)
    (st st' : state) : Prop :=
  match node with
  | ast.AnnAssign target _ _ =>
      ∃ var_name stack top,
        stringify_expr globals target st = (Ok var_name, st)
        ∧ scope_stack st = (stack ++ [top])%list
        ∧ st' = with_stack (stack ++ [{[ var_name ]} ∪ top]) st
  | _ => st' = st
  end.

Definition stmt_declares (globals : gmap string string) (node : ast.stmt)
  : Prop :=
  ∀ indent st text st',
    stringify_stmt globals node indent st = (Ok text, st') →
    declares globals node st st'.

(** A state with one empty scope, as inside a module. *)
Definition one_scope : state := with_stack [∅] initial_state.

(** [x: int = 3], [a = b = 1] and [y = 1] *)
Definition x_int_3 : ast.stmt :=
  ast.AnnAssign (ast.Name "x") (ast.Name "int") (Some (ast.Num (ast.NInt 3))).

Definition a_b_1 : ast.stmt :=
  ast.Assign [ast.Name "a"; ast.Name "b"] (ast.Num (ast.NInt 1)).

Definition y_1 : ast.stmt :=
  ast.Assign [ast.Name "y"] (ast.Num (ast.NInt 1)).

Definition undeclared_y : ast.node := ast.NModule [y_1].

(** ** Comparisons *)

(** [a < b < c], [a < b <= c] and [a <= b] *)
Definition a_lt_b_lt_c : ast.expr :=
  ast.Compare (ast.Name "a") [ast.Lt; ast.Lt] [ast.Name "b"; ast.Name "c"].

Definition a_lt_b_le_c : ast.expr :=
  ast.Compare (ast.Name "a") [ast.Lt; ast.LtE] [ast.Name "b"; ast.Name "c"].

Definition a_le_b : ast.expr :=
  ast.Compare (ast.Name "a") [ast.LtE] [ast.Name "b"].

(** [a: int], [b: int], [c: int] and then the chain, as a module. *)
Definition declared_chain (chain : ast.expr) : ast.node :=
  ast.NModule
    [ ast.AnnAssign (ast.Name "a") (ast.Name "int") None;
      ast.AnnAssign (ast.Name "b") (ast.Name "int") None;
      ast.AnnAssign (ast.Name "c") (ast.Name "int") None;
      ast.Expr chain ].

(** ** Counted loops *)

(** The two prefixes [split_for_iter] recognises. *)
Definition is_range (node_str : string) : bool :=
  String.prefix "range" node_str || String.prefix "okl.range" node_str.

(** [range(n)] and [okl.range(25)] *)
Definition range_n : ast.expr := ast.Call (ast.Name "range") [ast.Name "n"].

Definition okl_range_n : ast.expr :=
  ast.Call (ast.Attribute (ast.Name "okl") "range") [ast.Num (ast.NInt 25)].

(** ** Closures *)

(** The references closure inspection has no rule for: a global that is
    neither of a type of the table, nor a function, nor named [okl]; a
    builtin other than [range] and [len]. *)
Definition unsupported_global {F} (item : string * value F) : bool :=
  match item with
  | (name, Instance type) =>
      match truthy (VALID_GLOBAL_VALUE_TYPES type) with
      | Some _ => false
      | None => negb (bool_decide (name ∈ VALID_GLOBAL_NAMES))
      end
  | (_, Function _) => false
  end.

Definition unsupported_builtin (builtin : string) : bool :=
  negb (bool_decide (builtin ∈ VALID_BUILTINS)).

Definition references_unsupported (func : pyfunction) : bool :=
  existsb unsupported_global (closure_globals func)
  || existsb unsupported_builtin (closure_builtins func).

Definition raises_closure_error {A} (r : result A) : Prop :=
  ∃ message, r = Raise (FunctionClosureError message).

(** The captured functions, in the order of the closure. *)
Fixpoint helper_functions {F} (items : list (string * value F))
  : list (string * F) :=
  match items with
  | [] => []
  | (name, Function func) :: items' => (name, func) :: helper_functions items'
  | (_, Instance _) :: items' => helper_functions items'
  end.

(** A dictionary filled by the assignments [d[k] = v], in order. *)
Definition dict_of {V} (items : list (string * V)) : list (string * V) :=
  foldl (λ d item, dict_set item.1 item.2 d) [] items.

Definition no_arguments : ast.arguments :=
  {| ast.args := []; ast.vararg := None; ast.kwonlyargs := [];
     ast.kw_defaults := []; ast.kwarg := None; ast.defaults := [] |}.

(** [def g(): pass], a helper without a return type. *)
Definition untyped_g : pyfunction :=
  Def [] [] [ ast.FunctionDef "g" no_arguments [ast.Pass] [] None ].

(** A function that calls the helper [g], which has no return type,
    and then reads the global [x], a [str]. *)
Definition g_then_x : pyfunction :=
  Def [("g", Function untyped_g); ("x", Instance (other_type "str"))] [] [].

(** [def h() -> int: return 1] *)
Definition def_h : pyfunction :=
  Def [] []
    [ ast.FunctionDef "h" no_arguments
        [ast.Return (Some (ast.Num (ast.NInt 1)))] [] (Some (ast.Name "int")) ].

(** A function that calls [h] and [abs] and reads the global [x], a
    [str]. *)
Definition h_abs_x : pyfunction :=
  Def [("h", Function def_h); ("x", Instance (other_type "str"))] ["abs"] [].

(** [def g() -> int: return h()] and [def f() -> int: return g()]:
    [f] captures [g], which captures [h]. *)
Definition def_g : pyfunction :=
  Def [("h", Function def_h)] []
    [ ast.FunctionDef "g" no_arguments
        [ast.Return (Some (ast.Call (ast.Name "h") []))] []
        (Some (ast.Name "int")) ].

Definition def_f : pyfunction :=
  Def [("g", Function def_g)] []
    [ ast.FunctionDef "f" no_arguments
        [ast.Return (Some (ast.Call (ast.Name "g") []))] []
        (Some (ast.Name "int")) ].

(** The translated bodies of [h], [g] and [f]. *)
Definition body_h : string :=
  "int h() {" +:+ NL +:+ "  return 1;" +:+ NL +:+ "}".

Definition body_g : string :=
  "int g() {" +:+ NL +:+ "  return h();" +:+ NL +:+ "}".

Definition body_f : string :=
  "int f() {" +:+ NL +:+ "  return g();" +:+ NL +:+ "}".

(** [Oklifier(f)], once constructed. *)
Definition oklifier_f : Oklifier :=
  {| globals := ∅;
     functions :=
       [("g", {| signature := "int g();";
                 source := join (NL +:+ NL) ["int h();"; body_h; body_g] |})];
     root := ast.NModule (source_body def_f) |}.

(** ** The emitter, in the words of the specification

    The layout §4.6 of the specification gives the emitted text, to be
    compared with [to_str]: the helpers captured by the function or by
    one of its helpers, in the order closure inspection meets them;
    their forward signatures, then their own translated bodies, in that
    order, then the body of the function. *)
Fixpoint transitive_helpers (func : pyfunction) : list pyfunction :=
  match func with
  | Def closure_globals _ _ =>
      (fix go (items : list (string * value pyfunction)) : list pyfunction :=
         match items with
         | [] => []
         | (_, Function helper) :: items' =>
             (helper :: transitive_helpers helper ++ go items')%list
         | (_, Instance _) :: items' => go items'
         end) closure_globals
  end.

(** ** The forward declaration of a helper

    [text] is the forward declaration of the function [helper], made
    where the state is [st]: a new [Oklifier] is constructed for the
    helper, with a scope stack of its own, and [text] is the signature
    of the first statement of the source of the helper, rendered with
    the globals of that [Oklifier], followed by a semicolon. *)
Definition forward_declaration (helper : pyfunction) (st : state)
    (text : string) : Prop :=
  ∃ oklifier node rest declaration,
    Oklifier_of_function helper (with_stack [] st)
    = (Ok oklifier, with_stack [] st)
    ∧ source_body helper = node :: rest
    ∧ stringify_function_signature (globals oklifier) node false
        (with_stack [] st)
      = (Ok declaration, with_stack [] st)
    ∧ text = declaration +:+ ";".

Definition own_signature (func : pyfunction) : M string :=
  on_new_instance (oklifier ← Oklifier_of_function func;
                   helper_signature oklifier).

Definition own_body (func : pyfunction) : M string :=
  on_new_instance (oklifier ← Oklifier_of_function func;
                   stringify_node (globals oklifier) (root oklifier) "").

Definition spec_emit (func : pyfunction) : M string :=
  let helpers := transitive_helpers func in
  signatures ← mapM own_signature helpers;
  bodies ← mapM own_body helpers;
  root_str ← own_body func;
  mret (join (NL +:+ NL) (signatures ++ bodies ++ [root_str])%list).

(** * Properties *)

(** ** Running the monad *)

Lemma bind_run {A B} (m : M A) (f : A → M B) st :
  (m ≫= f) st =
  match m st with
  | (Ok a, st') => f a st'
  | (Raise e, st') => (Raise e, st')
  end.
Proof. reflexivity. Qed.

Lemma bind_Ok_inv {A B} (m : M A) (f : A → M B) st b st' :
  (m ≫= f) st = (Ok b, st') →
  ∃ a st1, m st = (Ok a, st1) ∧ f a st1 = (Ok b, st').
Proof.
  rewrite bind_run. destruct (m st) as [[a|e] st1]; [eauto | discriminate].
Qed.

Lemma bind_Ok {A B} (m : M A) (f : A → M B) st a st1 :
  m st = (Ok a, st1) → (m ≫= f) st = f a st1.
Proof. intros H. by rewrite bind_run, H. Qed.

Lemma bind_Raise {A B} (m : M A) (f : A → M B) st e st1 :
  m st = (Raise e, st1) → (m ≫= f) st = (Raise e, st1).
Proof. intros H. by rewrite bind_run, H. Qed.

Lemma mapM_nil {A B} (f : A → M B) : mapM f [] = mret [].
Proof. reflexivity. Qed.

Lemma mapM_cons {A B} (f : A → M B) x l :
  mapM f (x :: l) = (y ← f x; k ← mapM f l; mret (y :: k)).
Proof. reflexivity. Qed.

(** ** Relations every run of the translator respects

    [R st o st'] relates the state before a run, its outcome and the
    state after it.  A relation that holds of the primitives, is
    reflexive on success and absorbs a successful prefix holds of every
    computation built from them. *)

Section respects.

Context (R : state → option exn → state → Prop).
Hypothesis R_refl : ∀ st, R st None st.
Hypothesis R_trans :
  ∀ st st1 o st', R st None st1 → R st1 o st' → R st o st'.
Hypothesis R_raise : ∀ e st, plain e → R st (Some e) st.
Hypothesis R_raise_error :
  ∀ node message st,
    R st (outcome (raise_error (A:=unit) node message st).1)
      (raise_error (A:=unit) node message st).2.

Lemma respects_ret {A} (a : A) : respects R (mret a).
Proof. intros st. apply R_refl. Qed.

Lemma respects_raise {A} e : plain e → respects R (raise (A:=A) e).
Proof. intros He st. by apply R_raise. Qed.

Lemma respects_raise_error {A} node message :
  respects R (raise_error (A:=A) node message).
Proof.
  intros st. specialize (R_raise_error node message st).
  unfold raise_error in *. rewrite !bind_run in *. simpl in *.
  by destruct (ast.has_lineno node).
Qed.

Lemma respects_bind {A B} (m : M A) (f : A → M B) :
  respects R m → (∀ a, respects R (f a)) → respects R (m ≫= f).
Proof.
  intros Hm Hf st. rewrite bind_run. specialize (Hm st).
  destruct (m st) as [[a|e] st1]; simpl in *; [|done].
  eapply R_trans; [exact Hm | apply Hf].
Qed.

Lemma respects_mapM {A B} (f : A → M B) l :
  list_all A (λ x, respects R (f x)) l → respects R (mapM f l).
Proof.
  induction 1 as [|x Hx l Hl IH].
  - apply respects_ret.
  - rewrite mapM_cons. apply respects_bind; [done|]. intros y.
    apply respects_bind; [done|]. intros k. apply respects_ret.
Qed.

Lemma respects_mapM_all {A B} (f : A → M B) l :
  (∀ x, respects R (f x)) → respects R (mapM f l).
Proof.
  intros Hf. apply respects_mapM. induction l; constructor; auto.
Qed.

End respects.

(** One step of a proof that a computation respects a relation. *)
Ltac respects_step :=
  match goal with
  | |- respects _ (mret _) => apply respects_ret; assumption
  | |- respects _ (raise_error _ _) => apply respects_raise_error; assumption
  | |- respects _ (raise _) =>
      apply respects_raise; [assumption | by intros ?]
  | |- respects _ (_ ≫= _) => apply respects_bind; [assumption | | intros ?]
  | |- respects _ (mapM _ _) =>
      first [ apply respects_mapM; assumption
            | apply respects_mapM_all; [assumption | assumption | intros ?] ]
  | |- respects _ (match ?x with _ => _ end) => destruct x
  | |- respects _ (let '(_, _) := ?x in _) => destruct x
  | H : respects ?R ?m |- respects ?R ?m => exact H
  end.

Section respects_translator.

Context (R : state → option exn → state → Prop).
Hypothesis R_refl : ∀ st, R st None st.
Hypothesis R_trans :
  ∀ st st1 o st', R st None st1 → R st1 o st' → R st o st'.
Hypothesis R_raise : ∀ e st, plain e → R st (Some e) st.
Hypothesis R_raise_error :
  ∀ node message st,
    R st (outcome (raise_error (A:=unit) node message st).1)
      (raise_error (A:=unit) node message st).2.
Context (globals : gmap string string).

Lemma respects_compare_lookup k : respects R (compare_lookup k).
Proof. unfold compare_lookup. repeat respects_step. Qed.

Lemma respects_compare_loop render_values rest ops values :
  respects R render_values →
  respects R (compare_loop render_values rest ops values).
Proof.
  intros Hv. revert ops values.
  induction rest as [|op rest IH]; intros ops values; simpl.
  - respects_step.
  - repeat respects_step;
      first [apply respects_compare_lookup | apply IH].
Qed.

Lemma respects_compare_pair ops item : respects R (compare_pair ops item).
Proof.
  destruct item as [index [lhs rhs]]. simpl. repeat respects_step.
Qed.

Lemma respects_compare_join ops values :
  respects R (compare_join ops values).
Proof.
  unfold compare_join. repeat respects_step.
  apply respects_compare_pair.
Qed.

Lemma respects_stringify_expr node :
  respects R (stringify_expr globals node).
Proof.
  induction node; simpl; unfold stringify_NameConstant;
    try (repeat respects_step; fail).
  - (* Compare *)
    respects_step.
    + apply respects_compare_loop. repeat respects_step.
    + match goal with p : _ * _ |- _ => destruct p end.
      apply respects_compare_join.
  - (* Subscript *)
    match goal with H : ast.slice_all _ _ _ |- _ => destruct H end;
      repeat respects_step.
Qed.

Lemma respects_stringify_annotation_node node :
  (∀ var_name, respects R (stringify_annotation_node globals node var_name))
  ∧ match node with
    | ast.Tuple (type_node :: _) =>
        ∀ var_name,
          respects R (stringify_annotation_node globals type_node var_name)
    | _ => True
    end.
Proof.
  induction node; (split; [intros var_name | try exact I]); simpl;
    unfold stringify_NameConstant;
    try (repeat respects_step; fail).
  - (* Subscript *)
    match goal with H : ast.slice_all _ _ _ |- _ => destruct H as [index [Hindex Htuple]| |] end;
      [| repeat respects_step ..].
    respects_step; [apply respects_stringify_expr; assumption|].
    repeat match goal with
           | |- respects _ (if ?b then _ else _) => destruct b
           end;
      try (repeat respects_step; apply Hindex).
    destruct index; try (repeat respects_step; apply Hindex).
    destruct elts as [|type_node indices]; repeat respects_step.
    + apply Htuple.
    + apply respects_stringify_expr; assumption.
  - (* Tuple *)
    match goal with H : list_all _ _ _ |- _ => destruct H as [|? [H ?]] end;
      [exact I | exact H].
Qed.

Lemma respects_stringify_annotation node var_name :
  respects R (stringify_annotation globals node var_name).
Proof.
  destruct node as [node|]; simpl; [|respects_step].
  apply respects_stringify_annotation_node.
Qed.

Lemma respects_arguments_loop arg_count indent items args_str :
  respects R (arguments_loop globals arg_count indent items args_str).
Proof.
  revert args_str.
  induction items as [|[index arg] items IH]; intros args_str; simpl.
  - respects_step.
  - respects_step; [apply respects_stringify_annotation|].
    respects_step; [repeat respects_step|]. apply IH.
Qed.

Lemma respects_stringify_Arguments a indent :
  respects R (stringify_Arguments globals a indent).
Proof.
  unfold stringify_Arguments.
  do 3 (respects_step; [repeat respects_step|]).
  apply respects_arguments_loop.
Qed.

Lemma respects_decorators_loop items decorators :
  respects R (decorators_loop globals items decorators).
Proof.
  revert decorators.
  induction items as [|decorator items IH]; intros decorators; simpl.
  - respects_step.
  - respects_step; [apply respects_stringify_expr; assumption|].
    respects_step; [apply IH | respects_step].
Qed.

Lemma respects_stringify_function_signature node semicolon :
  respects R (stringify_function_signature globals node semicolon).
Proof.
  destruct node; simpl; try (repeat respects_step; fail).
  all: respects_step; [apply respects_stringify_annotation|].
  all: respects_step; [repeat respects_step|].
  all: respects_step; [apply respects_decorators_loop|].
  all: respects_step; [apply respects_stringify_Arguments|]; respects_step.
Qed.

Lemma respects_split_for_iter node :
  respects R (split_for_iter globals node).
Proof.
  unfold split_for_iter.
  respects_step; [apply respects_stringify_expr; assumption|].
  repeat respects_step.
Qed.

Lemma respects_for_step iter index step :
  respects R (for_step iter index step).
Proof. unfold for_step. repeat respects_step. Qed.

(** Statements also push, pop and extend scopes. *)
Hypothesis R_push_scope : respects R push_scope.
Hypothesis R_pop_scope : respects R pop_scope.
Hypothesis R_add_to_scope : ∀ var_name, respects R (add_to_scope var_name).

Lemma respects_is_defined var_name : respects R (is_defined var_name).
Proof. intros st. apply R_refl. Qed.

Lemma respects_stringify_block_of nodes_str indent :
  respects R nodes_str → respects R (stringify_block_of nodes_str indent).
Proof. intros H. unfold stringify_block_of. repeat respects_step. Qed.

Lemma respects_stringify_body_of block indent :
  respects R block → respects R (stringify_body_of block indent).
Proof. intros H. unfold stringify_body_of. repeat respects_step. Qed.

Lemma respects_stringify_stmt node :
  ∀ indent, respects R (stringify_stmt globals node indent).
Proof.
  assert (Hbody : ∀ body : list ast.stmt,
    list_all ast.stmt
      (λ s, ∀ indent, respects R (stringify_stmt globals s indent)) body →
    ∀ indent,
      respects R
        (stringify_body_of
           (stringify_block_of
              (mapM (λ node, stringify_stmt globals node
                               (indent +:+ INDENT_TAB)) body)
              (indent +:+ INDENT_TAB)) indent)).
  { intros body Hall indent. apply respects_stringify_body_of,
      respects_stringify_block_of, respects_mapM; try assumption.
    induction Hall; constructor; auto. }
  induction node as
    [ name args body IHbody decorator_list returns
    | name args body IHbody decorator_list returns
    | rvalue | targets avalue | target op avalue | target annotation ovalue
    | target iter body IHbody orelse IHorelse
    | test body IHbody orelse IHorelse
    | test body IHbody orelse IHorelse
    | evalue | | | | kind ];
    intros indent; cbn [stringify_stmt].
  - (* FunctionDef *)
    respects_step; [apply respects_stringify_function_signature|].
    respects_step; [by apply Hbody|]. respects_step.
  - (* AsyncFunctionDef *)
    respects_step.
  - (* Return *)
    destruct rvalue; repeat respects_step.
    apply respects_stringify_expr; assumption.
  - (* Assign *)
    destruct targets as [|var [|]]; [respects_step | | respects_step].
    respects_step; [apply respects_stringify_expr; assumption|].
    respects_step; [apply respects_is_defined|].
    repeat respects_step. apply respects_stringify_expr; assumption.
  - (* AugAssign *)
    repeat respects_step; apply respects_stringify_expr; assumption.
  - (* AnnAssign *)
    respects_step; [apply respects_stringify_expr; assumption|].
    respects_step; [apply R_add_to_scope|].
    respects_step; [apply respects_stringify_annotation_node|].
    repeat respects_step. apply respects_stringify_expr; assumption.
  - (* For *)
    respects_step; [repeat respects_step|].
    respects_step; [apply respects_stringify_expr; assumption|].
    respects_step; [apply respects_split_for_iter|].
    match goal with p : bound * bound * bound |- _ =>
      destruct p as [[start end_] step] end.
    respects_step; [apply respects_for_step|].
    respects_step; [by apply Hbody|]. respects_step.
  - (* While *)
    destruct orelse; [|respects_step].
    respects_step; [apply respects_stringify_expr; assumption|].
    respects_step; [by apply Hbody|]. respects_step.
  - (* If *)
    respects_step; [apply respects_stringify_expr; assumption|].
    respects_step; [by apply Hbody|].
    destruct IHorelse as [|elif Helif rest Hrest]; [respects_step|].
    assert (Helse : ∀ indent, respects R
      (stringify_body_of
         (stringify_block_of
            (mapM (λ node, stringify_stmt globals node
                             (indent +:+ INDENT_TAB))
               (elif :: rest))
            (indent +:+ INDENT_TAB)) indent))
      by (intros; apply Hbody; by constructor).
    destruct elif; try (respects_step; [apply Helse | respects_step]).
    destruct rest; [|respects_step; [apply Helse | respects_step]].
    respects_step; [apply Helif | respects_step].
  - (* Expr *)
    apply respects_stringify_expr; assumption.
  - respects_step.
  - respects_step.
  - respects_step.
  - respects_step.
Qed.

Lemma respects_stringify_block nodes indent :
  respects R (stringify_block globals nodes indent).
Proof.
  apply respects_stringify_block_of, respects_mapM_all; try assumption.
  intros node. apply respects_stringify_stmt.
Qed.

Lemma respects_stringify_node node indent :
  respects R (stringify_node globals node indent).
Proof.
  destruct node as [body|s|e|[value| |]| | | | | |]; simpl;
    try respects_step.
  - apply respects_stringify_block.
  - apply respects_stringify_stmt.
  - apply respects_stringify_expr; assumption.
  - apply respects_stringify_expr; assumption.
Qed.

End respects_translator.

(** ** What [raise_error] does *)

Lemma raise_error_run {A} node message st :
  raise_error (A:=A) node message st
  = (Raise (error_of node message), record_error node st).
Proof.
  unfold raise_error, error_of. rewrite bind_run. simpl.
  by destruct (ast.has_lineno node).
Qed.

(** ** Expressions, annotations and signatures leave the state alone *)

Lemma respects_quiet {A} (m : M A) : respects quiet_rel m → quiet m.
Proof.
  intros H st a st' Hrun. specialize (H st). rewrite Hrun in H. by apply H.
Qed.

Section quiet.

Context (globals : gmap string string).

Let quiet_refl : ∀ st, quiet_rel st None st.
Proof. by intros st _. Qed.

Let quiet_trans :
  ∀ st st1 o st', quiet_rel st None st1 → quiet_rel st1 o st' →
                  quiet_rel st o st'.
Proof. intros st st1 o st' H1 H2 Ho. rewrite (H2 Ho). by apply H1. Qed.

Let quiet_raise : ∀ e st, plain e → quiet_rel st (Some e) st.
Proof. by intros e st _ ?. Qed.

Let quiet_raise_error :
  ∀ node message st,
    quiet_rel st (outcome (raise_error (A:=unit) node message st).1)
      (raise_error (A:=unit) node message st).2.
Proof. intros node message st. by rewrite raise_error_run. Qed.

Lemma stringify_expr_quiet node : quiet (stringify_expr globals node).
Proof. apply respects_quiet, respects_stringify_expr; assumption. Qed.

Lemma stringify_annotation_quiet node var_name :
  quiet (stringify_annotation globals node var_name).
Proof. apply respects_quiet, respects_stringify_annotation; assumption. Qed.

Lemma stringify_function_signature_quiet node semicolon :
  quiet (stringify_function_signature globals node semicolon).
Proof.
  apply respects_quiet, respects_stringify_function_signature; assumption.
Qed.

Lemma split_for_iter_quiet node : quiet (split_for_iter globals node).
Proof. apply respects_quiet, respects_split_for_iter; assumption. Qed.

Lemma for_step_quiet iter index step : quiet (for_step iter index step).
Proof. apply respects_quiet, respects_for_step; assumption. Qed.

End quiet.

(** ** The last-error slot

    A run that succeeds leaves the module globals as they were; a run
    that fails either leaves them as they were, with an exception that
    is not a [TransformError], or has stored one node under the mangled
    name and fails with the exception [raise_error] raises for it. *)

Lemma tracked_refl st : tracked_rel st None st.
Proof. reflexivity. Qed.

Lemma tracked_trans st st1 o st' :
  tracked_rel st None st1 → tracked_rel st1 o st' → tracked_rel st o st'.
Proof.
  unfold tracked_rel. intros H1 H2. destruct o as [e|]; rewrite <- H1; done.
Qed.

Lemma tracked_raise e st : plain e → tracked_rel st (Some e) st.
Proof. intros He. by left. Qed.

Lemma tracked_raise_error node message st :
  tracked_rel st (outcome (raise_error (A:=unit) node message st).1)
    (raise_error (A:=unit) node message st).2.
Proof. rewrite raise_error_run. right. exists node. split; [by eexists|done]. Qed.

Lemma tracked_push_scope : tracked push_scope.
Proof. by intros st. Qed.

Lemma tracked_pop_scope : tracked pop_scope.
Proof.
  intros st. unfold pop_scope. destruct (scope_stack st); simpl; [|done].
  by left.
Qed.

Lemma tracked_add_to_scope var_name : tracked (add_to_scope var_name).
Proof.
  intros st. unfold add_to_scope. destruct (last (scope_stack st)); simpl;
    [done|by left].
Qed.

Ltac tracked_hyps :=
  first [ exact tracked_refl | exact tracked_trans | exact tracked_raise
        | exact tracked_raise_error | exact tracked_push_scope
        | exact tracked_pop_scope | exact tracked_add_to_scope ].

Lemma tracked_stringify_node globals node indent :
  tracked (stringify_node globals node indent).
Proof. apply respects_stringify_node; tracked_hyps. Qed.

Lemma tracked_stringify_function_signature globals node semicolon :
  tracked (stringify_function_signature globals node semicolon).
Proof. apply respects_stringify_function_signature; tracked_hyps. Qed.

(** ** Comparison chains *)

Lemma compare_lookup_Ok k k' st st' :
  compare_lookup k st = (Ok k', st') → ∃ s, k' = OpStr s.
Proof.
  unfold compare_lookup. destruct (COMPARE_OP_STR k) as [s|]; [|discriminate].
  intros [= <- _]. by exists s.
Qed.

(** After one round of the loop, [ops] holds strings, and a second
    round looks them up in a table keyed by classes. *)
Lemma compare_chain_never_succeeds globals lhs op1 op2 ops comparators st :
  ∀ text st',
    stringify_expr globals (ast.Compare lhs (op1 :: op2 :: ops) comparators) st
    ≠ (Ok text, st').
Proof.
  intros text st' H. cbn [stringify_expr] in H.
  apply bind_Ok_inv in H as ([ops' values] & st1 & Hloop & _).
  cbn [compare_loop fmap list_fmap] in Hloop.
  destruct (COMPARE_OP_STR (OpClass op1));
    [|by rewrite raise_error_run in Hloop].
  apply bind_Ok_inv in Hloop as (ops1 & st2 & Hops & Hloop).
  rewrite mapM_cons in Hops.
  apply bind_Ok_inv in Hops as (k1 & st3 & Hk1 & Hops).
  apply compare_lookup_Ok in Hk1 as [s1 ->].
  apply bind_Ok_inv in Hops as (ks & st4 & _ & [= <- _]).
  apply bind_Ok_inv in Hloop as (values1 & st5 & _ & Hloop).
  destruct (COMPARE_OP_STR (OpClass op2));
    [|by rewrite raise_error_run in Hloop].
  apply bind_Ok_inv in Hloop as (ops2 & st6 & Hops & _).
  rewrite mapM_cons in Hops.
  apply bind_Ok_inv in Hops as (k2 & st7 & Hk2 & _).
  discriminate Hk2.
Qed.

(** C1: on the chain [a < b < c], with [a], [b] and [c] declared as
    [int], the translation does not emit [a < b && b < c]; it ends in
    the [KeyError] of the second round of the loop, which looks the
    string ['<'] up in the table of operator classes.  The same holds of
    the bare expression. *)
Theorem compare_chain_a_lt_b_lt_c_KeyError :
  py2okl (AST (declared_chain a_lt_b_lt_c)) initial_state
  = (Raise (KeyError "'<'"),
     {| scope_stack := []; module_globals := initial_module_globals |})
  ∧ ∀ st, stringify_expr ∅ a_lt_b_lt_c st = (Raise (KeyError "'<'"), st).
Proof. split; [vm_compute; reflexivity | intros st; reflexivity]. Qed.

(** C10: on [a < b <= c] the translation does not end in a
    [TransformError]: the first round of the loop accepts [<] and then
    looks every operator of the chain up in the table, [<=] included,
    which is a [KeyError]. *)
Theorem compare_a_lt_b_le_c_KeyError :
  ∀ st, stringify_expr ∅ a_lt_b_le_c st
        = (Raise (KeyError "<class '_ast.LtE'>"), st).
Proof. intros st. reflexivity. Qed.

(** On [a <= b] the guard fires, on the operator node, which has no
    position for [raise_error] to read. *)
Lemma compare_a_le_b_AttributeError st :
  stringify_expr ∅ a_le_b st
  = (Raise AttributeError, record_error (ast.NCmpop ast.LtE) st).
Proof. reflexivity. Qed.

(** ** Augmented assignment *)

(** C2: [a <<= b] is emitted as [a << b], and [a //= b] as
    [a = floor(a /= b)]. *)
Theorem aug_assign_lshift_floordiv :
  ∀ indent st,
    stringify_stmt ∅ (ast.AugAssign (ast.Name "a") ast.LShift (ast.Name "b"))
      indent st = (Ok "a << b", st)
    ∧ stringify_stmt ∅
        (ast.AugAssign (ast.Name "a") ast.FloorDiv (ast.Name "b"))
        indent st = (Ok "a = floor(a /= b)", st).
Proof. intros indent st. split; reflexivity. Qed.

(** The other entries of the table are the compound forms. *)
Lemma aug_assign_compound globals target op value indent st lhs rhs sym :
  stringify_expr globals target st = (Ok lhs, st) →
  stringify_expr globals value st = (Ok rhs, st) →
  (op, sym) ∈ [ (ast.Add, "+="); (ast.Sub, "-="); (ast.Mult, "*=");
                (ast.Div, "/="); (ast.Mod, "%="); (ast.RShift, ">>=");
                (ast.BitOr, "|="); (ast.BitAnd, "&=") ] →
  stringify_stmt globals (ast.AugAssign target op value) indent st
  = (Ok (lhs +:+ " " +:+ sym +:+ " " +:+ rhs), st).
Proof.
  intros Hl Hr Hop. cbn [stringify_stmt].
  repeat (apply elem_of_cons in Hop as [[= -> ->]|Hop];
          [cbn [AUG_OP_FORMATS]; by rewrite (bind_Ok _ _ _ _ _ Hl),
                                            (bind_Ok _ _ _ _ _ Hr)|]).
  by apply elem_of_nil in Hop.
Qed.

(** ** The type names of captured globals *)

(** C5: the table of type names; signed and unsigned integers of one
    width share a name; and a captured global whose class is in the
    table is recorded under that name, which is how its name is then
    rendered. *)
Theorem global_type_names :
  VALID_GLOBAL_VALUE_TYPES py_bool = Some "bool"
  ∧ VALID_GLOBAL_VALUE_TYPES np_bool_ = Some "bool"
  ∧ VALID_GLOBAL_VALUE_TYPES np_int8 = Some "char"
  ∧ VALID_GLOBAL_VALUE_TYPES np_uint8 = Some "char"
  ∧ VALID_GLOBAL_VALUE_TYPES np_int16 = Some "short"
  ∧ VALID_GLOBAL_VALUE_TYPES np_uint16 = Some "short"
  ∧ VALID_GLOBAL_VALUE_TYPES np_int32 = Some "int"
  ∧ VALID_GLOBAL_VALUE_TYPES np_uint32 = Some "int"
  ∧ VALID_GLOBAL_VALUE_TYPES np_int64 = Some "long"
  ∧ VALID_GLOBAL_VALUE_TYPES np_uint64 = Some "long"
  ∧ VALID_GLOBAL_VALUE_TYPES np_float32 = Some "float"
  ∧ VALID_GLOBAL_VALUE_TYPES np_float64 = Some "double"
  ∧ VALID_GLOBAL_VALUE_TYPES py_int = Some "int"
  ∧ VALID_GLOBAL_VALUE_TYPES py_float = Some "double"
  ∧ VALID_GLOBAL_VALUE_TYPES NoneType = Some "void"
  ∧ (∀ name, VALID_GLOBAL_VALUE_TYPES (other_type name) = None)
  ∧ (∀ name type type_str body st,
       VALID_GLOBAL_VALUE_TYPES type = Some type_str →
       Oklifier_of_function (Def [(name, Instance type)] [] body) st
       = (Ok {| globals := {[ name := type_str ]}; functions := [];
                root := ast.NModule body |}, st)
       ∧ stringify_Name {[ name := type_str ]} name = type_str).
Proof.
  do 16 (split; [reflexivity|]).
  intros name type type_str body st Htype. split.
  - cbn [Oklifier_of_function]. unfold inspect_function_closure.
    cbn [inspect_globals]. rewrite Htype.
    destruct type; simpl in Htype; simplify_eq; reflexivity.
  - unfold stringify_Name. rewrite lookup_singleton_eq.
    destruct type; simpl in Htype; simplify_eq; reflexivity.
Qed.

Lemma global_type_names_witness :
  Oklifier_of_function (Def [("N", Instance np_uint16)] [] []) initial_state
  = (Ok {| globals := {[ "N" := "short" ]}; functions := [];
           root := ast.NModule [] |}, initial_state)
  ∧ stringify_Name {[ "N" := "short" ]} "N" = "short".
Proof.
  destruct global_type_names as (_&_&_&_&_&_&_&_&_&_&_&_&_&_&_&_&H).
  apply (H "N" np_uint16 "short" [] initial_state). reflexivity.
Defined.

(** ** Counted loops *)

Lemma stringify_stmt_For globals target iter body orelse indent :
  stringify_stmt globals (ast.For target iter body orelse) indent
  = ((if is_Name target then mret tt
      else raise_error (ast.NExpr target)
             "Can only handle one variable for the for-loop index");;
     index ← stringify_expr globals target;
     '(start, end_, step) ← split_for_iter globals iter;
     step' ← for_step iter index step;
     body' ← stringify_body globals body indent;
     mret (for_header index start end_ step' +:+ body')).
Proof. reflexivity. Qed.

Lemma split_for_iter_range globals iter node_str st st' :
  stringify_expr globals iter st = (Ok node_str, st') →
  is_range node_str = true →
  split_for_iter globals iter st = (Ok (BInt 0, BInt 10, BInt 1), st).
Proof.
  intros Hiter Hrange. pose proof (stringify_expr_quiet _ _ _ _ _ Hiter) as ->.
  unfold split_for_iter. rewrite (bind_Ok _ _ _ _ _ Hiter).
  unfold is_range in Hrange.
  destruct (String.prefix "range" node_str); [reflexivity|].
  simpl in Hrange. by rewrite Hrange.
Qed.

Lemma split_for_iter_other globals iter node_str st st' :
  stringify_expr globals iter st = (Ok node_str, st') →
  is_range node_str = false →
  split_for_iter globals iter st
  = (Raise (TransformError "Unable to transform this iterable"),
     record_error (ast.NExpr iter) st).
Proof.
  intros Hiter Hrange. pose proof (stringify_expr_quiet _ _ _ _ _ Hiter) as ->.
  unfold split_for_iter. rewrite (bind_Ok _ _ _ _ _ Hiter).
  unfold is_range in Hrange. apply orb_false_iff in Hrange as [-> ->].
  by rewrite raise_error_run.
Qed.

(** C3: an iterable whose text starts with [range] or [okl.range]
    resolves to the bounds (0, 10, 1) whatever its arguments; the loop
    over it then has the header [for (int i = 0; i < 10; ++i)], [i]
    being the text of the index, and in particular [for i in range(n)]
    has it for every [n] that renders; an iterable whose text has
    neither prefix, and a target that is not a [Name], end the
    translation in a [TransformError]. *)
Theorem counted_loop_fixed_bounds globals :
  (∀ iter node_str st st',
     stringify_expr globals iter st = (Ok node_str, st') →
     is_range node_str = true →
     split_for_iter globals iter st = (Ok (BInt 0, BInt 10, BInt 1), st))
  ∧ (∀ i iter node_str body body' orelse indent st st' st'',
       stringify_expr globals iter st = (Ok node_str, st') →
       is_range node_str = true →
       stringify_body globals body indent st = (Ok body', st'') →
       let index := stringify_Name globals i in
       stringify_stmt globals (ast.For (ast.Name i) iter body orelse) indent st
       = (Ok (("for (int " +:+ index +:+ " = 0; " +:+ index +:+ " < 10; ++"
               +:+ index +:+ ")") +:+ body'), st''))
  ∧ (∀ i n n_str body body' orelse indent st st' st'',
       globals !! i = None → globals !! "range" = None →
       stringify_expr globals n st = (Ok n_str, st') →
       stringify_body globals body indent st = (Ok body', st'') →
       stringify_stmt globals
         (ast.For (ast.Name i) (ast.Call (ast.Name "range") [n]) body orelse)
         indent st
       = (Ok (("for (int " +:+ i +:+ " = 0; " +:+ i +:+ " < 10; ++"
               +:+ i +:+ ")") +:+ body'), st''))
  ∧ (∀ i iter node_str body orelse indent st st',
       stringify_expr globals iter st = (Ok node_str, st') →
       is_range node_str = false →
       stringify_stmt globals (ast.For (ast.Name i) iter body orelse) indent st
       = (Raise (TransformError "Unable to transform this iterable"),
          record_error (ast.NExpr iter) st))
  ∧ (∀ target iter body orelse indent st,
       is_Name target = false →
       stringify_stmt globals (ast.For target iter body orelse) indent st
       = (Raise (TransformError
                   "Can only handle one variable for the for-loop index"),
          record_error (ast.NExpr target) st)).
Proof.
  assert (Hloop : ∀ i iter node_str body body' orelse indent st st' st'',
    stringify_expr globals iter st = (Ok node_str, st') →
    is_range node_str = true →
    stringify_body globals body indent st = (Ok body', st'') →
    stringify_stmt globals (ast.For (ast.Name i) iter body orelse) indent st
    = (Ok (("for (int " +:+ stringify_Name globals i +:+ " = 0; "
            +:+ stringify_Name globals i +:+ " < 10; ++"
            +:+ stringify_Name globals i +:+ ")") +:+ body'), st'')).
  { intros i iter node_str body body' orelse indent st st' st'' Hiter Hr Hbody.
    rewrite stringify_stmt_For. cbn [is_Name].
    do 2 (erewrite bind_Ok by reflexivity).
    erewrite bind_Ok by (eapply split_for_iter_range; eassumption).
    cbv beta iota. erewrite bind_Ok by reflexivity.
    erewrite bind_Ok by exact Hbody. reflexivity. }
  split; [apply split_for_iter_range|].
  split; [exact Hloop|].
  split; [|split].
  - intros i n n_str body body' orelse indent st st' st'' Hi Hrange Hn Hbody.
    pose proof (stringify_expr_quiet _ _ _ _ _ Hn) as ->.
    assert (Hiter : stringify_expr globals
                      (ast.Call (ast.Name "range") [n]) st
                    = (Ok ("range(" +:+ n_str +:+ ")"), st)).
    { cbn [stringify_expr]. rewrite mapM_cons.
      erewrite bind_Ok by (erewrite bind_Ok by exact Hn; reflexivity).
      erewrite bind_Ok by reflexivity.
      unfold stringify_Name. rewrite Hrange. reflexivity. }
    rewrite (Hloop _ _ _ _ _ _ _ _ _ _ Hiter eq_refl Hbody).
    unfold stringify_Name. by rewrite Hi.
  - intros i iter node_str body orelse indent st st' Hiter Hr.
    rewrite stringify_stmt_For. cbn [is_Name].
    do 2 (erewrite bind_Ok by reflexivity).
    erewrite bind_Raise by (eapply split_for_iter_other; eassumption).
    reflexivity.
  - intros target iter body orelse indent st Htarget.
    rewrite stringify_stmt_For, Htarget.
    erewrite bind_Raise by apply raise_error_run. reflexivity.
Qed.

Lemma counted_loop_fixed_bounds_witness :
  split_for_iter ∅ okl_range_n initial_state
  = (Ok (BInt 0, BInt 10, BInt 1), initial_state)
  ∧ stringify_stmt ∅ (ast.For (ast.Name "i") okl_range_n [ast.Break] []) ""
      initial_state
    = (Ok ("for (int i = 0; i < 10; ++i) {" +:+ NL +:+ "  break;" +:+ NL
           +:+ "}"), initial_state)
  ∧ stringify_stmt ∅ (ast.For (ast.Name "i") range_n [] []) "" initial_state
    = (Ok "for (int i = 0; i < 10; ++i) {}", initial_state)
  ∧ stringify_stmt ∅ (ast.For (ast.Name "i") (ast.Name "items") [] []) ""
      initial_state
    = (Raise (TransformError "Unable to transform this iterable"),
       record_error (ast.NExpr (ast.Name "items")) initial_state)
  ∧ stringify_stmt ∅
      (ast.For (ast.Tuple [ast.Name "i"; ast.Name "j"]) range_n [] []) ""
      initial_state
    = (Raise (TransformError
                "Can only handle one variable for the for-loop index"),
       record_error (ast.NExpr (ast.Tuple [ast.Name "i"; ast.Name "j"]))
         initial_state).
Proof.
  destruct (counted_loop_fixed_bounds ∅) as (H1 & H2 & H3 & H4 & H5).
  split; [|split; [|split; [|split]]].
  - apply (H1 okl_range_n "okl.range(25)" initial_state initial_state);
      reflexivity.
  - apply (H2 "i" okl_range_n "okl.range(25)" [ast.Break]
             (" {" +:+ NL +:+ "  break;" +:+ NL +:+ "}") [] ""
             initial_state initial_state initial_state); reflexivity.
  - apply (H3 "i" (ast.Name "n") "n" [] " {}" [] "" initial_state
             initial_state initial_state); reflexivity.
  - apply (H4 "i" (ast.Name "items") "items" [] [] "" initial_state
             initial_state); reflexivity.
  - apply (H5 (ast.Tuple [ast.Name "i"; ast.Name "j"]) range_n [] [] ""
             initial_state); reflexivity.
Defined.

(** C4: the step expression of the loop header, by the integer step
    that [split_for_iter] resolved: an error for 0, [++index] for 1,
    [index += k] for [k > 1], [--index] for -1 and [index -= k] for
    [-k] with [k > 1]; and the header of every emitted loop holds the
    step rendered this way. *)
Theorem for_step_by_value globals :
  (∀ iter index step st,
     (step = 0%Z →
      for_step iter index (BInt step) st
      = (Raise (TransformError "Cannot have for-loop with a step size of 0"),
         record_error (ast.NExpr iter) st))
     ∧ (step = 1%Z →
        for_step iter index (BInt step) st = (Ok ("++" +:+ index), st))
     ∧ ((1 < step)%Z →
        for_step iter index (BInt step) st
        = (Ok (index +:+ " += " +:+ str_int step), st))
     ∧ (step = (-1)%Z →
        for_step iter index (BInt step) st = (Ok ("--" +:+ index), st))
     ∧ ((step < -1)%Z →
        for_step iter index (BInt step) st
        = (Ok (index +:+ " -= " +:+ str_int (Z.abs step)), st)))
  ∧ (∀ target iter body orelse indent st text st',
       stringify_stmt globals (ast.For target iter body orelse) indent st
       = (Ok text, st') →
       ∃ index start end_ step step' body',
         stringify_expr globals target st = (Ok index, st)
         ∧ split_for_iter globals iter st = (Ok (start, end_, step), st)
         ∧ for_step iter index step st = (Ok step', st)
         ∧ text = ("for (int " +:+ index +:+ " = " +:+ str_bound start
                   +:+ "; " +:+ index +:+ " < " +:+ str_bound end_ +:+ "; "
                   +:+ step' +:+ ")") +:+ body').
Proof.
  split.
  - intros iter index step st. unfold for_step. repeat split.
    + intros ->. simpl. by rewrite raise_error_run.
    + by intros ->.
    + intros Hstep.
      destruct (Z.eqb_spec step 0); [lia|].
      destruct (Z.gtb_spec step 0); [|lia].
      destruct (Z.eqb_spec step 1); [lia|]. reflexivity.
    + by intros ->.
    + intros Hstep.
      destruct (Z.eqb_spec step 0); [lia|].
      destruct (Z.gtb_spec step 0); [lia|].
      destruct (Z.eqb_spec step (-1)); [lia|].
      by rewrite Z.abs_neq by lia.
  - intros target iter body orelse indent st text st' Hrun.
    rewrite stringify_stmt_For in Hrun.
    apply bind_Ok_inv in Hrun as (? & st1 & Hname & Hrun).
    assert (st1 = st) as ->.
    { destruct (is_Name target); [by injection Hname|].
      by rewrite raise_error_run in Hname. }
    apply bind_Ok_inv in Hrun as (index & st2 & Hindex & Hrun).
    pose proof (stringify_expr_quiet _ _ _ _ _ Hindex) as ->.
    apply bind_Ok_inv in Hrun as ([[start end_] step] & st3 & Hsplit & Hrun).
    pose proof (split_for_iter_quiet _ _ _ _ _ Hsplit) as ->.
    apply bind_Ok_inv in Hrun as (step' & st4 & Hstep & Hrun).
    pose proof (for_step_quiet _ _ _ _ _ _ Hstep) as ->.
    apply bind_Ok_inv in Hrun as (body' & st5 & Hbody & [= <- _]).
    by exists index, start, end_, step, step', body'.
Qed.

Lemma for_step_by_value_witness :
  for_step range_n "i" (BInt 0) initial_state
  = (Raise (TransformError "Cannot have for-loop with a step size of 0"),
     record_error (ast.NExpr range_n) initial_state)
  ∧ for_step range_n "i" (BInt 1) initial_state = (Ok "++i", initial_state)
  ∧ for_step range_n "i" (BInt 3) initial_state = (Ok "i += 3", initial_state)
  ∧ for_step range_n "i" (BInt (-1)) initial_state = (Ok "--i", initial_state)
  ∧ for_step range_n "i" (BInt (-2)) initial_state = (Ok "i -= 2", initial_state)
  ∧ ∃ index start end_ step step' body',
      stringify_expr ∅ (ast.Name "i") initial_state = (Ok index, initial_state)
      ∧ split_for_iter ∅ range_n initial_state
        = (Ok (start, end_, step), initial_state)
      ∧ for_step range_n index step initial_state = (Ok step', initial_state)
      ∧ "for (int i = 0; i < 10; ++i) {}"
        = ("for (int " +:+ index +:+ " = " +:+ str_bound start
           +:+ "; " +:+ index +:+ " < " +:+ str_bound end_ +:+ "; "
           +:+ step' +:+ ")") +:+ body'.
Proof.
  destruct (for_step_by_value ∅) as [Hstep Hfor].
  split; [|split; [|split; [|split; [|split]]]].
  - apply (Hstep range_n "i" 0%Z initial_state). reflexivity.
  - apply (Hstep range_n "i" 1%Z initial_state). reflexivity.
  - apply (Hstep range_n "i" 3%Z initial_state). reflexivity.
  - apply (Hstep range_n "i" (-1)%Z initial_state). reflexivity.
  - apply (Hstep range_n "i" (-2)%Z initial_state). reflexivity.
  - apply (Hfor (ast.Name "i") range_n [] [] "" initial_state
             "for (int i = 0; i < 10; ++i) {}" initial_state). reflexivity.
Defined.

(** ** The scope stack *)

Lemma with_stack_same st : with_stack (scope_stack st) st = st.
Proof. by destruct st. Qed.

Lemma is_defined_in_spec stack var_name :
  is_defined_in stack var_name = true
  ↔ ∃ scope, scope ∈ stack ∧ var_name ∈ scope.
Proof.
  induction stack as [|scope stack IH]; simpl.
  - split; [done|]. intros (scope & Hin & _). by apply elem_of_nil in Hin.
  - case_bool_decide as Hscope.
    + split; [|done]. intros _. exists scope. split; [left|done].
    + rewrite IH. split.
      * intros (scope' & Hin & Hvar). exists scope'. split; [by right|done].
      * intros (scope' & Hin & Hvar).
        apply elem_of_cons in Hin as [->|Hin]; [done|]. by exists scope'.
Qed.

Lemma last_Some_snoc {A} (l : list A) x :
  last l = Some x → l = (removelast l ++ [x])%list.
Proof.
  intros H. destruct (last_Some l x) as [[l' ->] _]; [done|].
  by rewrite removelast_last.
Qed.

Lemma push_scope_run st :
  push_scope st = (Ok tt, with_stack (scope_stack st ++ [∅]) st).
Proof. reflexivity. Qed.

Lemma pop_scope_snoc stack top st :
  pop_scope (with_stack (stack ++ [top]) st) = (Ok tt, with_stack stack st).
Proof.
  unfold pop_scope, with_stack. simpl.
  rewrite removelast_last. by destruct stack.
Qed.

Lemma add_to_scope_Ok var_name st st' :
  add_to_scope var_name st = (Ok tt, st') →
  ∃ stack top,
    scope_stack st = (stack ++ [top])%list
    ∧ st' = with_stack (stack ++ [{[ var_name ]} ∪ top]) st.
Proof.
  unfold add_to_scope. destruct (last (scope_stack st)) as [top|] eqn:Hlast;
    [|discriminate].
  intros [= <-]. exists (removelast (scope_stack st)), top.
  split; [by apply last_Some_snoc|done].
Qed.

Section scope.

Context (globals : gmap string string).

Lemma declares_top node st st' stack top :
  declares globals node st st' →
  scope_stack st = (stack ++ [top])%list →
  ∃ top', st' = with_stack (stack ++ [top']) st.
Proof.
  intros Hdecl Hstack.
  assert (Hsame : st' = st → ∃ top', st' = with_stack (stack ++ [top']) st).
  { intros ->. exists top. by rewrite <- Hstack, with_stack_same. }
  destruct node; try exact (Hsame Hdecl).
  destruct Hdecl as (var_name & stack' & top' & _ & Hstack' & ->).
  rewrite Hstack in Hstack'. apply app_inj_tail in Hstack' as [<- <-].
  by eexists.
Qed.

Lemma mapM_stmts_top body indent :
  list_all ast.stmt (stmt_declares globals) body →
  ∀ st stack top strs st',
    scope_stack st = (stack ++ [top])%list →
    mapM (λ node, stringify_stmt globals node indent) body st = (Ok strs, st') →
    ∃ top', st' = with_stack (stack ++ [top']) st.
Proof.
  induction 1 as [|node Hnode body Hbody IH];
    intros st stack top strs st' Hstack Hrun.
  - injection Hrun as _ <-. exists top. by rewrite <- Hstack, with_stack_same.
  - rewrite mapM_cons in Hrun.
    apply bind_Ok_inv in Hrun as (str & st1 & Hstr & Hrun).
    apply bind_Ok_inv in Hrun as (strs' & st2 & Hstrs & [= _ <-]).
    apply Hnode in Hstr.
    destruct (declares_top _ _ _ _ _ Hstr Hstack) as [top1 ->].
    destruct (IH (with_stack (stack ++ [top1]) st) stack top1 _ _ eq_refl Hstrs)
      as [top2 ->].
    by exists top2.
Qed.

Lemma stringify_block_of_quiet body indent :
  list_all ast.stmt (stmt_declares globals) body →
  quiet (stringify_block_of
           (mapM (λ node, stringify_stmt globals node indent) body) indent).
Proof.
  intros Hbody st text st' Hrun. unfold stringify_block_of in Hrun.
  apply bind_Ok_inv in Hrun as ([] & st1 & Hpush & Hrun).
  rewrite push_scope_run in Hpush. injection Hpush as <-.
  apply bind_Ok_inv in Hrun as (strs & st2 & Hstrs & Hrun).
  destruct (mapM_stmts_top _ _ Hbody (with_stack (scope_stack st ++ [∅]) st)
              (scope_stack st) ∅ _ _ eq_refl Hstrs) as [top' ->].
  apply bind_Ok_inv in Hrun as ([] & st3 & Hpop & [= _ <-]).
  change (with_stack (scope_stack st ++ [top'])
            (with_stack (scope_stack st ++ [∅]) st))
    with (with_stack (scope_stack st ++ [top']) st) in Hpop.
  rewrite pop_scope_snoc in Hpop. injection Hpop as <-.
  apply with_stack_same.
Qed.

Lemma stringify_body_of_quiet block indent :
  quiet block → quiet (stringify_body_of block indent).
Proof.
  intros Hblock st text st' Hrun. unfold stringify_body_of in Hrun.
  apply bind_Ok_inv in Hrun as (body & st1 & Hbody & Hrun).
  apply Hblock in Hbody as ->.
  by destruct (nonempty body); injection Hrun.
Qed.

Lemma stringify_body_fix_quiet body indent :
  list_all ast.stmt (stmt_declares globals) body →
  quiet (stringify_body_of
           (stringify_block_of
              (mapM (λ node, stringify_stmt globals node
                               (indent +:+ INDENT_TAB)) body)
              (indent +:+ INDENT_TAB)) indent).
Proof.
  intros Hbody. by apply stringify_body_of_quiet, stringify_block_of_quiet.
Qed.

Lemma stringify_stmt_declares node : stmt_declares globals node.
Proof.
  induction node as
    [ name args body IHbody decorator_list returns
    | name args body IHbody decorator_list returns
    | rvalue | targets avalue | target op avalue | target annotation ovalue
    | target iter body IHbody orelse IHorelse
    | test body IHbody orelse IHorelse
    | test body IHbody orelse IHorelse
    | evalue | | | | kind ];
    intros indent st text st' Hrun; cbn [stringify_stmt] in Hrun;
    cbn [declares].
  - (* FunctionDef *)
    apply bind_Ok_inv in Hrun as (func_str & st1 & Hsig & Hrun).
    apply stringify_function_signature_quiet in Hsig as ->.
    apply bind_Ok_inv in Hrun as (body' & st2 & Hbody & [= _ <-]).
    by apply stringify_body_fix_quiet in Hbody.
  - (* AsyncFunctionDef *)
    by rewrite raise_error_run in Hrun.
  - (* Return *)
    destruct rvalue as [rvalue|]; [|by rewrite raise_error_run in Hrun].
    apply bind_Ok_inv in Hrun as (value' & st1 & Hvalue & [= _ <-]).
    by apply stringify_expr_quiet in Hvalue.
  - (* Assign *)
    destruct targets as [|var [|]]; try by rewrite raise_error_run in Hrun.
    apply bind_Ok_inv in Hrun as (var_str & st1 & Hvar & Hrun).
    apply stringify_expr_quiet in Hvar as ->.
    apply bind_Ok_inv in Hrun as (defined & st2 & [= <- <-] & Hrun).
    destruct (is_Name var && negb _); [by rewrite raise_error_run in Hrun|].
    apply bind_Ok_inv in Hrun as (rhs & st3 & Hrhs & [= _ <-]).
    by apply stringify_expr_quiet in Hrhs.
  - (* AugAssign *)
    destruct (AUG_OP_FORMATS op); [|by rewrite raise_error_run in Hrun].
    apply bind_Ok_inv in Hrun as (lhs & st1 & Hlhs & Hrun).
    apply stringify_expr_quiet in Hlhs as ->.
    apply bind_Ok_inv in Hrun as (rhs & st2 & Hrhs & [= _ <-]).
    by apply stringify_expr_quiet in Hrhs.
  - (* AnnAssign *)
    apply bind_Ok_inv in Hrun as (var_name & st1 & Hvar & Hrun).
    pose proof (stringify_expr_quiet _ _ _ _ _ Hvar) as ->.
    apply bind_Ok_inv in Hrun as ([] & st2 & Hadd & Hrun).
    apply add_to_scope_Ok in Hadd as (stack & top & Hstack & ->).
    apply bind_Ok_inv in Hrun as (node_str & st3 & Hann & Hrun).
    apply (stringify_annotation_quiet _ (Some annotation)) in Hann as ->.
    exists var_name, stack, top. split; [done|]. split; [done|].
    destruct ovalue as [value|]; [|by injection Hrun].
    apply bind_Ok_inv in Hrun as (value' & st4 & Hvalue & [= _ <-]).
    by apply stringify_expr_quiet in Hvalue.
  - (* For *)
    apply bind_Ok_inv in Hrun as ([] & st1 & Hname & Hrun).
    assert (st1 = st) as ->.
    { destruct (is_Name target); [by injection Hname|].
      by rewrite raise_error_run in Hname. }
    apply bind_Ok_inv in Hrun as (index & st2 & Hindex & Hrun).
    apply stringify_expr_quiet in Hindex as ->.
    apply bind_Ok_inv in Hrun as ([[start end_] step] & st3 & Hsplit & Hrun).
    apply split_for_iter_quiet in Hsplit as ->.
    apply bind_Ok_inv in Hrun as (step' & st4 & Hstep & Hrun).
    apply for_step_quiet in Hstep as ->.
    apply bind_Ok_inv in Hrun as (body' & st5 & Hbody & [= _ <-]).
    by apply stringify_body_fix_quiet in Hbody.
  - (* While *)
    destruct orelse; [|by rewrite raise_error_run in Hrun].
    apply bind_Ok_inv in Hrun as (test' & st1 & Htest & Hrun).
    apply stringify_expr_quiet in Htest as ->.
    apply bind_Ok_inv in Hrun as (body' & st2 & Hbody & [= _ <-]).
    by apply stringify_body_fix_quiet in Hbody.
  - (* If *)
    apply bind_Ok_inv in Hrun as (test' & st1 & Htest & Hrun).
    apply stringify_expr_quiet in Htest as ->.
    apply bind_Ok_inv in Hrun as (body' & st2 & Hbody & Hrun).
    apply stringify_body_fix_quiet in Hbody as ->; [|done].
    destruct IHorelse as [|elif Helif rest Hrest]; [by injection Hrun|].
    assert (Helse : ∀ text st',
      (else' ← stringify_body_of
                 (stringify_block_of
                    (mapM (λ node, stringify_stmt globals node
                                     (indent +:+ INDENT_TAB)) (elif :: rest))
                    (indent +:+ INDENT_TAB)) indent;
       mret ((("if (" +:+ test' +:+ ")") +:+ body') +:+ NL +:+ indent
             +:+ "else " +:+ else')) st = (Ok text, st') → st' = st).
    { intros text0 st0 Hrun0.
      apply bind_Ok_inv in Hrun0 as (else' & st3 & Helse & [= _ <-]).
      apply stringify_body_fix_quiet in Helse; [done|by constructor]. }
    destruct elif; try exact (Helse _ _ Hrun).
    destruct rest; [|exact (Helse _ _ Hrun)].
    apply bind_Ok_inv in Hrun as (else' & st3 & Helif' & [= _ <-]).
    by apply Helif in Helif'.
  - (* Expr *)
    by apply stringify_expr_quiet in Hrun.
  - by injection Hrun.
  - by injection Hrun.
  - by injection Hrun.
  - by rewrite raise_error_run in Hrun.
Qed.

Lemma stringify_block_quiet nodes indent :
  quiet (stringify_block globals nodes indent).
Proof.
  apply stringify_block_of_quiet.
  induction nodes; constructor; auto using stringify_stmt_declares.
Qed.

Lemma stringify_body_quiet nodes indent :
  quiet (stringify_body globals nodes indent).
Proof. apply stringify_body_of_quiet, stringify_block_quiet. Qed.

End scope.

(** C7: a name is defined exactly when some set on the stack holds it;
    a statement that is translated leaves the state as it found it
    unless it is an annotated assignment, which adds the text of its
    target to the innermost set; so does every block, module included;
    an assignment with a number of targets other than one, and an
    assignment to a bare name whose text is not defined, end the
    translation in a [TransformError]. *)
Theorem scope_stack_discipline globals :
  (∀ var_name st,
     is_defined var_name st
     = (Ok (is_defined_in (scope_stack st) var_name), st)
     ∧ (is_defined_in (scope_stack st) var_name = true
        ↔ ∃ scope, scope ∈ scope_stack st ∧ var_name ∈ scope))
  ∧ (∀ node indent st text st',
       stringify_stmt globals node indent st = (Ok text, st') →
       match node with
       | ast.AnnAssign target _ _ =>
           ∃ var_name stack top,
             stringify_expr globals target st = (Ok var_name, st)
             ∧ scope_stack st = (stack ++ [top])%list
             ∧ scope_stack st' = (stack ++ [{[ var_name ]} ∪ top])%list
             ∧ module_globals st' = module_globals st
       | _ => st' = st
       end)
  ∧ (∀ node indent st text st',
       stringify_node globals node indent st = (Ok text, st') →
       match node with
       | ast.NStmt (ast.AnnAssign _ _ _) => True
       | _ => st' = st
       end)
  ∧ (∀ targets value indent st,
       length targets ≠ 1 →
       stringify_stmt globals (ast.Assign targets value) indent st
       = (Raise (TransformError
                   "Cannot handle assignment of more than 1 value"),
          record_error (ast.NStmt (ast.Assign targets value)) st))
  ∧ (∀ id value indent st,
       is_defined_in (scope_stack st) (stringify_Name globals id) = false →
       stringify_stmt globals (ast.Assign [ast.Name id] value) indent st
       = (Raise (TransformError "Cannot handle untyped variables"),
          record_error (ast.NStmt (ast.Assign [ast.Name id] value)) st)).
Proof.
  split; [|split; [|split; [|split]]].
  - intros var_name st. split; [reflexivity|apply is_defined_in_spec].
  - intros node indent st text st' Hrun.
    apply stringify_stmt_declares in Hrun.
    destruct node; try exact Hrun.
    destruct Hrun as (var_name & stack & top & Hvar & Hstack & ->).
    by exists var_name, stack, top.
  - intros node indent st text st' Hrun.
    destruct node as [body|s|e|[value| |]| | | | | |]; simpl in Hrun;
      try by rewrite raise_error_run in Hrun.
    + by apply stringify_block_quiet in Hrun.
    + apply stringify_stmt_declares in Hrun. by destruct s.
    + by apply stringify_expr_quiet in Hrun.
    + by apply stringify_expr_quiet in Hrun.
  - intros targets value indent st Hlen. cbn [stringify_stmt].
    destruct targets as [|var [|]]; try done; by rewrite raise_error_run.
  - intros id value indent st Hdef. cbn [stringify_stmt].
    erewrite bind_Ok by reflexivity.
    erewrite bind_Ok by reflexivity.
    rewrite Hdef. simpl. by rewrite raise_error_run.
Qed.

Lemma scope_stack_discipline_witness :
  (∃ var_name stack top,
     stringify_expr ∅ (ast.Name "x") one_scope = (Ok var_name, one_scope)
     ∧ scope_stack one_scope = (stack ++ [top])%list
     ∧ scope_stack (with_stack [{[ "x" ]} ∪ ∅] initial_state)
       = (stack ++ [{[ var_name ]} ∪ top])%list
     ∧ module_globals (with_stack [{[ "x" ]} ∪ ∅] initial_state)
       = module_globals one_scope)
  ∧ initial_state = initial_state
  ∧ stringify_stmt ∅ a_b_1 "" one_scope
    = (Raise (TransformError "Cannot handle assignment of more than 1 value"),
       record_error (ast.NStmt a_b_1) one_scope)
  ∧ stringify_stmt ∅ y_1 "" one_scope
    = (Raise (TransformError "Cannot handle untyped variables"),
       record_error (ast.NStmt y_1) one_scope).
Proof.
  destruct (scope_stack_discipline ∅) as (_ & Hstmt & Hnode & Hmany & Hbare).
  split; [|split; [|split]].
  - apply (Hstmt x_int_3 "" one_scope "int x = 3;"
             (with_stack [{[ "x" ]} ∪ ∅] initial_state)).
    reflexivity.
  - apply (Hnode (ast.NModule [x_int_3; ast.Assign [ast.Name "x"]
                                          (ast.Num (ast.NInt 4))])
             "" initial_state ("int x = 3;" +:+ NL +:+ "x = 4;")
             initial_state).
    vm_compute. reflexivity.
  - apply (Hmany [ast.Name "a"; ast.Name "b"] (ast.Num (ast.NInt 1)) ""
             one_scope). simpl. lia.
  - apply (Hbare "y" (ast.Num (ast.NInt 1)) "" one_scope).
    vm_compute. reflexivity.
Defined.

(** ** The last failing node *)

Lemma tracked_on_new_instance {A} (m : M A) :
  tracked m → tracked (on_new_instance m).
Proof.
  intros Hm st. unfold on_new_instance.
  specialize (Hm {| scope_stack := []; module_globals := module_globals st |}).
  by destruct (m _) as [r st'].
Qed.

Lemma tracked_bind {A B} (m : M A) (f : A → M B) :
  tracked m → (∀ a, tracked (f a)) → tracked (m ≫= f).
Proof. apply respects_bind; tracked_hyps. Qed.

Lemma tracked_ret {A} (a : A) : tracked (mret a).
Proof. apply respects_ret; tracked_hyps. Qed.

Lemma tracked_raise_plain {A} e : plain e → tracked (raise (A:=A) e).
Proof. apply respects_raise; tracked_hyps. Qed.

Lemma tracked_to_str self : tracked (to_str self).
Proof.
  unfold to_str. apply tracked_bind; [apply tracked_stringify_node|].
  intros root_str. apply tracked_ret.
Qed.

Lemma tracked_helper_signature oklifier : tracked (helper_signature oklifier).
Proof.
  unfold helper_signature. destruct (root oklifier) as [[|node ?]| | | | | | | | |];
    try (by apply tracked_raise_plain).
  apply tracked_stringify_function_signature.
Qed.

Lemma tracked_helper_entry make : tracked make → tracked (helper_entry make).
Proof.
  intros Hmake. unfold helper_entry. apply tracked_on_new_instance.
  apply tracked_bind; [done|]. intros oklifier.
  apply tracked_bind; [apply tracked_helper_signature|]. intros sig.
  apply tracked_bind; [apply tracked_to_str|]. intros src. apply tracked_ret.
Qed.

Lemma tracked_check_builtins builtins : tracked (check_builtins builtins).
Proof.
  induction builtins as [|builtin builtins IH]; simpl; [apply tracked_ret|].
  case_bool_decide; [done|by apply tracked_raise_plain].
Qed.

Lemma tracked_inspect_globals {F} (Oklifier_ : F → M Oklifier) items :
  list_all _ (prod_all _ (λ _, ()%type) _
                (value_all _ (λ func, tracked (Oklifier_ func)))) items →
  ∀ globals functions,
    tracked (inspect_globals Oklifier_ items globals functions).
Proof.
  induction 1 as [|[name value] Hitem items Hitems IH];
    intros globals functions; cbn [inspect_globals]; [apply tracked_ret|].
  destruct (truthy _); [apply IH|].
  inversion Hitem as [? _ ? Hvalue]; subst.
  destruct Hvalue as [type|func Hfunc].
  - case_bool_decide; [apply IH|by apply tracked_raise_plain].
  - apply tracked_bind; [by apply tracked_helper_entry|]. intros entry.
    apply IH.
Qed.

Lemma tracked_Oklifier_of_function func : tracked (Oklifier_of_function func).
Proof.
  induction func as [closure_globals IH closure_builtins source_body].
  cbn [Oklifier_of_function]. unfold inspect_function_closure.
  apply tracked_bind; [|intros [globals functions]; apply tracked_ret].
  apply tracked_bind; [by apply tracked_inspect_globals|].
  intros [globals functions].
  apply tracked_bind; [apply tracked_check_builtins|].
  intros []. apply tracked_ret.
Qed.

Lemma tracked_py2okl obj : tracked (py2okl obj).
Proof.
  unfold py2okl. apply tracked_on_new_instance.
  apply tracked_bind; [|intros self; apply tracked_to_str].
  destruct obj; simpl.
  - apply tracked_ret.
  - apply tracked_Oklifier_of_function.
  - by apply tracked_raise_plain.
Qed.

Lemma get_last_error_node_recorded node st :
  get_last_error_node (record_error node st)
  = (Ok node, record_error node st).
Proof.
  unfold get_last_error_node, get_global, record_error. simpl.
  by rewrite lookup_insert_eq.
Qed.

(** C9, as stated, fails on [h_abs_x]: its translation fails, in a
    [FunctionClosureError], and the accessor called after it returns no
    node: it ends in a [NameError], as before the failure.  And after
    the failure of [undeclared_y], the same failure leaves the accessor
    with the node of [undeclared_y], which is not the node that has
    just failed. *)
Lemma accessor_after_closure_error :
  py2okl (FunctionObject h_abs_x) initial_state
  = (Raise (FunctionClosureError "Unable to transform non-local variable: x"),
     initial_state)
  ∧ get_last_error_node initial_state
    = (Raise (NameError "_Oklifier__last_error_node"), initial_state)
  ∧ py2okl (AST undeclared_y) initial_state
    = (Raise (TransformError "Cannot handle untyped variables"),
       record_error (ast.NStmt y_1) initial_state)
  ∧ py2okl (FunctionObject h_abs_x)
      (record_error (ast.NStmt y_1) initial_state)
    = (Raise (FunctionClosureError
                "Unable to transform non-local variable: x"),
       record_error (ast.NStmt y_1) initial_state)
  ∧ get_last_error_node (record_error (ast.NStmt y_1) initial_state)
    = (Ok (ast.NStmt y_1), record_error (ast.NStmt y_1) initial_state)
  ∧ ¬ (∀ obj st e st',
         py2okl obj st = (Raise e, st') →
         ∃ node, get_last_error_node st' = (Ok node, st')).
Proof.
  do 5 (split; [vm_compute; reflexivity|]).
  intros Hclaim.
  destruct (Hclaim (FunctionObject h_abs_x) initial_state
              (FunctionClosureError
                 "Unable to transform non-local variable: x")
              initial_state ltac:(vm_compute; reflexivity)) as [node Hnode].
  vm_compute in Hnode. discriminate Hnode.
Qed.

(** C9, amended: the module binds [__last_error_node], the methods of
    the class use [_Oklifier__last_error_node]; so the accessor, called
    before any error, ends in a [NameError]; [raise_error] stores its
    node under the mangled name, where the accessor then finds it; a
    translation that succeeds leaves the module globals as they were,
    one that ends in a [TransformError] leaves the node it failed on
    for the accessor, and one that ends in another exception that
    [raise_error] does not raise, as a [FunctionClosureError] or a
    [TypeError], leaves the module globals, and with them what the
    accessor returns, as they were. *)
Theorem last_error_node_accessor :
  initial_module_globals = {[ "__last_error_node" := ast.NNone ]}
  ∧ last_error_name = "_Oklifier__last_error_node"
  ∧ get_last_error_node initial_state
    = (Raise (NameError "_Oklifier__last_error_node"), initial_state)
  ∧ (∀ A node message st,
       ∃ e st',
         raise_error (A:=A) node message st = (Raise e, st')
         ∧ get_last_error_node st' = (Ok node, st'))
  ∧ (∀ obj st text st',
       py2okl obj st = (Ok text, st') →
       module_globals st' = module_globals st
       ∧ ∀ st0, get_last_error_node st = (Raise (NameError last_error_name), st0) →
                get_last_error_node st' = (Raise (NameError last_error_name), st'))
  ∧ (∀ obj st message st',
       py2okl obj st = (Raise (TransformError message), st') →
       ∃ node,
         ast.has_lineno node = true
         ∧ module_globals st' = <[last_error_name := node]> (module_globals st)
         ∧ get_last_error_node st' = (Ok node, st'))
  ∧ (∀ obj st e st',
       py2okl obj st = (Raise e, st') →
       (∀ message, e ≠ TransformError message) → e ≠ AttributeError →
       module_globals st' = module_globals st
       ∧ (get_last_error_node st').1 = (get_last_error_node st).1).
Proof.
  split; [reflexivity|]. split; [reflexivity|]. split; [reflexivity|].
  split; [|split; [|split]]; cycle 3.
  - intros obj st e st' Hrun Hnot Hattr.
    pose proof (tracked_py2okl obj st) as H. rewrite Hrun in H. simpl in H.
    destruct H as [[_ Hsame]|(node & [message Hrep] & _)].
    + split; [done|]. unfold get_last_error_node, get_global.
      rewrite Hsame. by destruct (module_globals st !! last_error_name).
    + unfold error_of in Hrep.
      destruct (ast.has_lineno node); [by destruct (Hnot message)|done].
  - intros A node message st. exists (error_of node message), (record_error node st).
    split; [apply raise_error_run|apply get_last_error_node_recorded].
  - intros obj st text st' Hrun.
    pose proof (tracked_py2okl obj st) as H. rewrite Hrun in H. simpl in H.
    split; [done|]. intros st0. unfold get_last_error_node, get_global.
    rewrite H. destruct (module_globals st !! last_error_name); [done|].
    by intros _.
  - intros obj st message st' Hrun.
    pose proof (tracked_py2okl obj st) as H. rewrite Hrun in H. simpl in H.
    destruct H as [[Hplain _]|(node & [message' Hrep] & Hstore)];
      [by destruct (Hplain message)|].
    exists node. unfold error_of in Hrep.
    destruct (ast.has_lineno node); [|discriminate].
    split; [done|]. split; [done|].
    unfold get_last_error_node, get_global. by rewrite Hstore, lookup_insert_eq.
Qed.

Lemma last_error_node_accessor_witness :
  (module_globals initial_state = module_globals initial_state
   ∧ ∀ st0,
       get_last_error_node initial_state
       = (Raise (NameError last_error_name), st0) →
       get_last_error_node initial_state
       = (Raise (NameError last_error_name), initial_state))
  ∧ (∃ node,
      ast.has_lineno node = true
      ∧ module_globals (record_error (ast.NStmt y_1) initial_state)
        = <[last_error_name := node]> (module_globals initial_state)
      ∧ get_last_error_node (record_error (ast.NStmt y_1) initial_state)
        = (Ok node, record_error (ast.NStmt y_1) initial_state))
  ∧ module_globals (record_error (ast.NStmt y_1) initial_state)
    = module_globals (record_error (ast.NStmt y_1) initial_state)
  ∧ (get_last_error_node (record_error (ast.NStmt y_1) initial_state)).1
    = (get_last_error_node (record_error (ast.NStmt y_1) initial_state)).1.
Proof.
  destruct last_error_node_accessor as (_ & _ & _ & _ & Hok & Herr & Hplain).
  split; [|split]; cycle 2.
  - apply (Hplain (FunctionObject h_abs_x)
             (record_error (ast.NStmt y_1) initial_state)
             (FunctionClosureError
                "Unable to transform non-local variable: x")
             (record_error (ast.NStmt y_1) initial_state));
      [vm_compute; reflexivity|discriminate|discriminate].
  - apply (Hok (AST (ast.NModule [x_int_3])) initial_state "int x = 3;"
             initial_state).
    vm_compute. reflexivity.
  - apply (Herr (AST undeclared_y) initial_state
             "Cannot handle untyped variables"
             (record_error (ast.NStmt y_1) initial_state)).
    vm_compute. reflexivity.
Defined.

(** ** Closure inspection *)

Lemma tracked_quiet_on_new_instance {A} (m : M A) :
  tracked m → quiet (on_new_instance m).
Proof.
  intros Hm st a st'. unfold on_new_instance.
  specialize (Hm {| scope_stack := []; module_globals := module_globals st |}).
  destruct (m _) as [r st1]. intros [= -> <-]. simpl in Hm. rewrite Hm.
  by destruct st.
Qed.

Lemma helper_entry_quiet func : quiet (helper_entry (Oklifier_of_function func)).
Proof.
  apply tracked_quiet_on_new_instance.
  apply tracked_bind; [apply tracked_Oklifier_of_function|]. intros oklifier.
  apply tracked_bind; [apply tracked_helper_signature|]. intros sig.
  apply tracked_bind; [apply tracked_to_str|]. intros src. apply tracked_ret.
Qed.

Lemma py2okl_quiet obj : quiet (py2okl obj).
Proof.
  apply tracked_quiet_on_new_instance.
  apply tracked_bind; [|intros self; apply tracked_to_str].
  destruct obj; simpl.
  - apply tracked_ret.
  - apply tracked_Oklifier_of_function.
  - by apply tracked_raise_plain.
Qed.

Lemma check_builtins_run builtins st :
  if existsb unsupported_builtin builtins
  then ∃ message,
         check_builtins builtins st = (Raise (FunctionClosureError message), st)
  else check_builtins builtins st = (Ok tt, st).
Proof.
  induction builtins as [|builtin builtins IH]; simpl; [done|].
  unfold unsupported_builtin at 1. case_bool_decide; simpl; [done|].
  by eexists.
Qed.

Lemma inspect_globals_run items :
  ∀ globals functions st,
    (∀ name helper,
       (name, Function helper) ∈ items →
       ∃ entry st',
         helper_entry (Oklifier_of_function helper) st = (Ok entry, st')) →
    if existsb unsupported_global items
    then ∃ message,
           inspect_globals Oklifier_of_function items globals functions st
           = (Raise (FunctionClosureError message), st)
    else ∃ globals' functions',
           inspect_globals Oklifier_of_function items globals functions st
           = (Ok (globals', functions'), st).
Proof.
  induction items as [|[name value] items IH]; intros globals functions st Hhelpers;
    cbn [inspect_globals existsb unsupported_global].
  - by eexists _, _.
  - assert (Hrest : ∀ name helper,
              (name, Function helper) ∈ items →
              ∃ entry st',
                helper_entry (Oklifier_of_function helper) st = (Ok entry, st'))
      by (intros ???; eapply Hhelpers; by right).
    destruct value as [type|helper].
    + destruct (truthy (VALID_GLOBAL_VALUE_TYPES type)); simpl; [by apply IH|].
      case_bool_decide; simpl; [by apply IH|by eexists].
    + cbn [truthy orb]. destruct (Hhelpers name helper) as (entry & st' & Hentry); [left|].
      pose proof (helper_entry_quiet _ _ _ _ Hentry) as ->.
      specialize (IH globals (dict_set name entry functions) st Hrest).
      destruct (existsb unsupported_global items).
      * destruct IH as [message IH]. exists message.
        by rewrite (bind_Ok _ _ _ _ _ Hentry).
      * destruct IH as (globals' & functions' & IH). exists globals', functions'.
        by rewrite (bind_Ok _ _ _ _ _ Hentry).
Qed.

(** The items before the one that ends the inspection: typed globals,
    the allowed name, and helpers that are translated. *)
Lemma inspect_globals_passed before rest :
  ∀ globals functions st,
    existsb unsupported_global before = false →
    (∀ name helper,
       (name, Function helper) ∈ before →
       ∃ entry st',
         helper_entry (Oklifier_of_function helper) st = (Ok entry, st')) →
    ∃ globals' functions',
      inspect_globals Oklifier_of_function (before ++ rest) globals functions st
      = inspect_globals Oklifier_of_function rest globals' functions' st.
Proof.
  induction before as [|[name value] before IH];
    intros globals functions st Hsupported Hhelpers.
  - by exists globals, functions.
  - cbn [existsb] in Hsupported.
    apply orb_false_iff in Hsupported as [Hitem Hsupported].
    assert (Hrest : ∀ name helper,
              (name, Function helper) ∈ before →
              ∃ entry st',
                helper_entry (Oklifier_of_function helper) st = (Ok entry, st'))
      by (intros ???; eapply Hhelpers; by right).
    simpl app. cbn [inspect_globals].
    destruct value as [type|helper]; cbn [unsupported_global truthy] in *.
    + destruct (truthy (VALID_GLOBAL_VALUE_TYPES type)); [by apply IH|].
      case_bool_decide; [by apply IH|discriminate].
    + destruct (Hhelpers name helper) as (entry & st' & Hentry); [left|].
      pose proof (helper_entry_quiet _ _ _ _ Hentry) as ->.
      destruct (IH globals (dict_set name entry functions) st Hsupported Hrest)
        as (globals' & functions' & Heq).
      exists globals', functions'.
      by rewrite (bind_Ok _ _ _ _ _ Hentry).
Qed.

Lemma inspect_globals_helpers items :
  ∀ globals functions st globals' functions' st',
    inspect_globals Oklifier_of_function items globals functions st
    = (Ok (globals', functions'), st') →
    ∀ name helper,
      (name, Function helper) ∈ items →
      ∃ entry,
        helper_entry (Oklifier_of_function helper) st = (Ok entry, st).
Proof.
  induction items as [|[name value] items IH];
    intros globals functions st globals' functions' st' Hrun name' helper Hin;
    [by apply elem_of_nil in Hin|].
  cbn [inspect_globals] in Hrun. apply elem_of_cons in Hin as [Hin|Hin].
  - injection Hin as <- <-. cbn [truthy] in Hrun.
    apply bind_Ok_inv in Hrun as (entry & st1 & Hentry & _).
    pose proof (helper_entry_quiet _ _ _ _ Hentry) as ->. by exists entry.
  - destruct value as [type|helper']; cbn [truthy] in Hrun.
    + destruct (truthy (VALID_GLOBAL_VALUE_TYPES type)); [by eapply IH|].
      case_bool_decide; [by eapply IH|discriminate].
    + apply bind_Ok_inv in Hrun as (entry & st1 & Hentry & Hrun).
      pose proof (helper_entry_quiet _ _ _ _ Hentry) as ->. by eapply IH.
Qed.

Lemma helper_entry_translates helper entry st st' :
  helper_entry (Oklifier_of_function helper) st = (Ok entry, st') →
  py2okl (FunctionObject helper) st = (Ok (source entry), st).
Proof.
  unfold helper_entry, py2okl, on_new_instance. cbn [Oklifier_init].
  set (st0 := {| scope_stack := []; module_globals := module_globals st |}).
  rewrite !bind_run.
  destruct (Oklifier_of_function helper st0) as [[oklifier|e] st1] eqn:Hmake;
    [|discriminate].
  pose proof (tracked_Oklifier_of_function helper st0) as Hst1.
  rewrite Hmake in Hst1. simpl in Hst1.
  rewrite bind_run.
  destruct (helper_signature oklifier st1) as [[sig|e] st2] eqn:Hsig;
    [|discriminate].
  pose proof (tracked_helper_signature oklifier st1) as Hst2.
  rewrite Hsig in Hst2. simpl in Hst2.
  assert (st2 = st1) as ->.
  { unfold helper_signature in Hsig.
    destruct (root oklifier) as [[|node rest]| | | | | | | | |];
      try discriminate.
    by apply stringify_function_signature_quiet in Hsig. }
  rewrite bind_run.
  destruct (to_str oklifier st1) as [[src|e] st3] eqn:Hsrc; [|discriminate].
  pose proof (tracked_to_str oklifier st1) as Hst3.
  rewrite Hsrc in Hst3. simpl in Hst3.
  intros [= <- _]. simpl. f_equal.
  destruct st as [stack mg]. subst st0. simpl in *. congruence.
Qed.

(** An inspection that succeeds has translated every captured helper,
    and stored for it the text [py2okl] gives for the helper. *)
Lemma inspected_helpers_translated func st self st' :
  Oklifier_of_function func st = (Ok self, st') →
  ∀ name helper,
    (name, Function helper) ∈ closure_globals func →
    ∃ entry,
      helper_entry (Oklifier_of_function helper) st = (Ok entry, st)
      ∧ py2okl (FunctionObject helper) st = (Ok (source entry), st).
Proof.
  destruct func as [items builtins body]. intros Hrun name helper Hin.
  cbn [Oklifier_of_function closure_globals] in *.
  unfold inspect_function_closure in Hrun.
  apply bind_Ok_inv in Hrun as ([globals1 functions1] & st1 & Hrun & _).
  apply bind_Ok_inv in Hrun as ([globals2 functions2] & st2 & Hglobals & _).
  destruct (inspect_globals_helpers _ _ _ _ _ _ _ Hglobals name helper Hin)
    as [entry Hentry].
  exists entry. split; [done|]. by eapply helper_entry_translates.
Qed.

(** C6, as stated, fails on [g_then_x]: the function references the
    unsupported global [x], and its inspection does not end in a
    [FunctionClosureError]: the helper [g], met first, is translated on
    the spot and ends it in a [TransformError]. *)
Lemma closure_error_not_iff_unsupported :
  ¬ (raises_closure_error (Oklifier_of_function g_then_x initial_state).1
     ↔ references_unsupported g_then_x = true).
Proof.
  intros [_ H]. destruct (H eq_refl) as [message Hraise].
  vm_compute in Hraise. discriminate Hraise.
Qed.

Lemma g_then_x_TransformError :
  Oklifier_of_function g_then_x initial_state
  = (Raise (TransformError "Function must have a return value type"),
     record_error
       (ast.NStmt (ast.FunctionDef "g" no_arguments [ast.Pass] [] None))
       initial_state).
Proof. vm_compute. reflexivity. Qed.

(** C6, amended: when every helper function it captures is translated
    without error, the inspection of a function ends in a
    [FunctionClosureError] exactly when the function references an
    unsupported global or builtin; an inspection that fails does so
    whatever the source of the function is, which is not read before.
    The captured globals are gone through in the order of the closure,
    and a captured helper is constructed and translated on the spot:
    the first helper for which this fails ends the inspection with its
    exception, and the first unsupported global with a
    [FunctionClosureError], whatever comes after in the closure; an
    inspection that succeeds has translated every captured helper in
    full, as [py2okl] translates it, so that an inspection fails as
    soon as the translation of one captured helper does. *)
Theorem closure_inspection_errors :
  (∀ func st,
     (∀ name helper,
        (name, Function helper) ∈ closure_globals func →
        ∃ entry st',
          helper_entry (Oklifier_of_function helper) st = (Ok entry, st')) →
     raises_closure_error (Oklifier_of_function func st).1
     ↔ references_unsupported func = true)
  ∧ (∀ closure_globals closure_builtins source_body source_body' st e st',
       Oklifier_of_function
         (Def closure_globals closure_builtins source_body) st
       = (Raise e, st') →
       Oklifier_of_function
         (Def closure_globals closure_builtins source_body') st
       = (Raise e, st')
       ∧ Oklifier_init
           (FunctionObject
              (Def closure_globals closure_builtins source_body')) st
         = (Raise e, st'))
  ∧ (∀ before name helper after closure_builtins source_body st e st',
       existsb unsupported_global before = false →
       (∀ name helper,
          (name, Function helper) ∈ before →
          ∃ entry st',
            helper_entry (Oklifier_of_function helper) st = (Ok entry, st')) →
       helper_entry (Oklifier_of_function helper) st = (Raise e, st') →
       Oklifier_of_function
         (Def (before ++ (name, Function helper) :: after) closure_builtins
            source_body) st
       = (Raise e, st'))
  ∧ (∀ before name type after closure_builtins source_body st,
       existsb unsupported_global before = false →
       (∀ name helper,
          (name, Function helper) ∈ before →
          ∃ entry st',
            helper_entry (Oklifier_of_function helper) st = (Ok entry, st')) →
       unsupported_global (F:=pyfunction) (name, Instance type) = true →
       Oklifier_of_function
         (Def (before ++ (name, Instance type) :: after) closure_builtins
            source_body) st
       = (Raise (FunctionClosureError
                   ("Unable to transform non-local variable: " +:+ name)),
          st))
  ∧ (∀ func st self st',
       Oklifier_of_function func st = (Ok self, st') →
       ∀ name helper,
         (name, Function helper) ∈ closure_globals func →
         ∃ entry,
           helper_entry (Oklifier_of_function helper) st = (Ok entry, st)
           ∧ py2okl (FunctionObject helper) st = (Ok (source entry), st))
  ∧ (∀ func st name helper e st1,
       (name, Function helper) ∈ closure_globals func →
       py2okl (FunctionObject helper) st = (Raise e, st1) →
       ∃ e' st', Oklifier_of_function func st = (Raise e', st')).
Proof.
  split; [|split; [|split; [|split; [|split]]]].
  - intros [items builtins body] st Hhelpers. unfold references_unsupported.
    cbn [closure_globals closure_builtins Oklifier_of_function] in *.
    unfold inspect_function_closure.
    pose proof (inspect_globals_run items ∅ [] st Hhelpers) as Hglobals.
    pose proof (check_builtins_run builtins st) as Hbuiltins.
    destruct (existsb unsupported_global items).
    + destruct Hglobals as [message Hglobals].
      erewrite bind_Raise
        by (erewrite bind_Raise by exact Hglobals; reflexivity).
      split; [done|]. intros _. by exists message.
    + destruct Hglobals as (globals' & functions' & Hglobals).
      destruct (existsb unsupported_builtin builtins).
      * destruct Hbuiltins as [message Hbuiltins].
        erewrite bind_Raise
          by (erewrite bind_Ok by exact Hglobals; cbv beta iota;
              erewrite bind_Raise by exact Hbuiltins; reflexivity).
        split; [done|]. intros _. by exists message.
      * erewrite bind_Ok
          by (erewrite bind_Ok by exact Hglobals; cbv beta iota;
              erewrite bind_Ok by exact Hbuiltins; reflexivity).
        simpl. split; [intros [message [=]]|done].
  - intros items builtins body body' st e st' Hrun.
    cbn [Oklifier_init Oklifier_of_function] in *.
    rewrite bind_run in *.
    destruct (inspect_function_closure _ _ _ _) as [[[globals' functions']|e'] st1];
      [discriminate|done].
  - intros before name helper after builtins body st e st' Hbefore Hhelpers
      Hfail.
    cbn [Oklifier_of_function]. unfold inspect_function_closure.
    destruct (inspect_globals_passed before ((name, Function helper) :: after)
                ∅ [] st Hbefore Hhelpers) as (globals' & functions' & Heq).
    erewrite bind_Raise; [reflexivity|].
    erewrite bind_Raise; [reflexivity|].
    rewrite Heq. cbn [inspect_globals truthy].
    by erewrite bind_Raise by exact Hfail.
  - intros before name type after builtins body st Hbefore Hhelpers Hitem.
    cbn [Oklifier_of_function]. unfold inspect_function_closure.
    destruct (inspect_globals_passed before ((name, Instance type) :: after)
                ∅ [] st Hbefore Hhelpers) as (globals' & functions' & Heq).
    erewrite bind_Raise; [reflexivity|].
    erewrite bind_Raise; [reflexivity|].
    rewrite Heq. cbn [inspect_globals]. cbn [unsupported_global] in Hitem.
    destruct (truthy (VALID_GLOBAL_VALUE_TYPES type)); [discriminate|].
    case_bool_decide; [discriminate|reflexivity].
  - exact inspected_helpers_translated.
  - intros func st name helper e st1 Hin Hfail.
    destruct (Oklifier_of_function func st) as [[self|e'] st'] eqn:Hrun;
      [|by exists e', st'].
    destruct (inspected_helpers_translated func st self st' Hrun name helper
                Hin) as (entry & _ & Hpy).
    rewrite Hpy in Hfail. discriminate Hfail.
Qed.

Lemma closure_inspection_errors_witness :
  (raises_closure_error (Oklifier_of_function h_abs_x initial_state).1
   ↔ references_unsupported h_abs_x = true)
  ∧ Oklifier_of_function
      (Def [("h", Function def_h)] ["abs"] [ast.Pass]) initial_state
    = (Raise (FunctionClosureError "Unable to transform builtin: abs"),
       initial_state)
  ∧ Oklifier_init
      (FunctionObject (Def [("h", Function def_h)] ["abs"] [ast.Pass]))
      initial_state
    = (Raise (FunctionClosureError "Unable to transform builtin: abs"),
       initial_state)
  ∧ Oklifier_of_function
      (Def [("h", Function def_h); ("g", Function untyped_g);
            ("x", Instance (other_type "str"))] [] []) initial_state
    = (Raise (TransformError "Function must have a return value type"),
       record_error
         (ast.NStmt (ast.FunctionDef "g" no_arguments [ast.Pass] [] None))
         initial_state)
  ∧ Oklifier_of_function
      (Def [("h", Function def_h); ("x", Instance (other_type "str"));
            ("g", Function untyped_g)] [] []) initial_state
    = (Raise (FunctionClosureError
                "Unable to transform non-local variable: x"), initial_state)
  ∧ (∃ entry,
      helper_entry (Oklifier_of_function def_g) initial_state
      = (Ok entry, initial_state)
      ∧ py2okl (FunctionObject def_g) initial_state
        = (Ok (source entry), initial_state))
  ∧ ∃ e' st', Oklifier_of_function g_then_x initial_state = (Raise e', st').
Proof.
  destruct closure_inspection_errors
    as (Hiff & Hsource & Hhelper & Hglobal & Hall & Hfails).
  assert (Hh : ∀ name helper,
            (name, Function helper)
            ∈ [("h", Function def_h)] →
            ∃ entry st',
              helper_entry (Oklifier_of_function helper) initial_state
              = (Ok entry, st')).
  { intros name helper Hin. apply elem_of_cons in Hin as [Hin|Hin].
    - injection Hin as -> ->. eexists _, _. vm_compute. reflexivity.
    - by apply elem_of_nil in Hin. }
  split; [|split; [|split; [|split; [|split; [|split]]]]]; cycle 1.
  - apply (Hsource [("h", Function def_h)] ["abs"] [] [ast.Pass]
             initial_state). vm_compute. reflexivity.
  - apply (Hsource [("h", Function def_h)] ["abs"] [] [ast.Pass]
             initial_state). vm_compute. reflexivity.
  - apply (Hhelper [("h", Function def_h)] "g" untyped_g
             [("x", Instance (other_type "str"))] [] [] initial_state);
      [reflexivity|exact Hh|vm_compute; reflexivity].
  - apply (Hglobal [("h", Function def_h)] "x" (other_type "str")
             [("g", Function untyped_g)] [] [] initial_state);
      [reflexivity|exact Hh|reflexivity].
  - apply (Hall def_f initial_state oklifier_f initial_state
             ltac:(vm_compute; reflexivity) "g" def_g). left.
  - apply (Hfails g_then_x initial_state "g" untyped_g
             (TransformError "Function must have a return value type")
             (record_error
                (ast.NStmt
                   (ast.FunctionDef "g" no_arguments [ast.Pass] [] None))
                initial_state));
      [left|vm_compute; reflexivity].
  - apply (Hiff h_abs_x initial_state). intros name helper Hin.
    apply elem_of_cons in Hin as [Hin|Hin].
    + injection Hin as -> ->. eexists _, _. vm_compute. reflexivity.
    + apply elem_of_cons in Hin as [Hin|Hin]; [discriminate Hin|].
      by apply elem_of_nil in Hin.
Defined.

(** ** The emitted text *)

Lemma inspect_globals_Ok items :
  ∀ globals functions st globals' functions' st',
    inspect_globals Oklifier_of_function items globals functions st
    = (Ok (globals', functions'), st') →
    st' = st
    ∧ ∃ entries,
        Forall2 (λ helper entry,
                   helper_entry (Oklifier_of_function helper.2) st
                   = (Ok entry, st))
          (helper_functions items) entries
        ∧ functions'
          = foldl (λ d item, dict_set item.1 item.2 d) functions
              (zip (helper_functions items).*1 entries).
Proof.
  induction items as [|[name value] items IH];
    intros globals functions st globals' functions' st' Hrun;
    cbn [inspect_globals] in Hrun.
  - injection Hrun as _ <- <-. split; [done|]. exists []. by split.
  - destruct value as [type|helper]; cbn [truthy helper_functions] in *.
    + destruct (truthy (VALID_GLOBAL_VALUE_TYPES type)); [by eapply IH|].
      case_bool_decide; [by eapply IH|discriminate].
    + apply bind_Ok_inv in Hrun as (entry & st1 & Hentry & Hrun).
      pose proof (helper_entry_quiet _ _ _ _ Hentry) as ->.
      apply IH in Hrun as (-> & entries & Hentries & ->).
      split; [done|]. exists (entry :: entries). split; [by constructor|done].
Qed.

Lemma check_builtins_quiet builtins : quiet (check_builtins builtins).
Proof.
  intros st a st' Hrun. pose proof (check_builtins_run builtins st) as H.
  destruct (existsb _ _); [destruct H as [message H]|]; congruence.
Qed.

Lemma on_new_instance_Ok {A} (m : M A) a st st' :
  on_new_instance m st = (Ok a, st') →
  ∃ st1, m (with_stack [] st) = (Ok a, st1).
Proof.
  unfold on_new_instance.
  change {| scope_stack := []; module_globals := module_globals st |}
    with (with_stack [] st).
  destruct (m (with_stack [] st)) as [[a'|e] st1]; [|discriminate].
  intros [= -> _]. by exists st1.
Qed.

Lemma helper_entry_Ok make entry st st' :
  helper_entry make st = (Ok entry, st') →
  ∃ oklifier st1 st2 st3,
    make (with_stack [] st) = (Ok oklifier, st1)
    ∧ helper_signature oklifier st1 = (Ok (signature entry), st2)
    ∧ to_str oklifier st2 = (Ok (source entry), st3).
Proof.
  unfold helper_entry. intros Hrun.
  apply on_new_instance_Ok in Hrun as [st3 Hbody].
  apply bind_Ok_inv in Hbody as (oklifier & st1 & Hmake & Hbody).
  apply bind_Ok_inv in Hbody as (sig & st2 & Hsig & Hbody).
  apply bind_Ok_inv in Hbody as (src & st4 & Hsrc & [= <- <-]).
  by exists oklifier, st1, st2, st4.
Qed.

Lemma stringify_function_signature_semicolon globals node st text st' :
  stringify_function_signature globals node true st = (Ok text, st') →
  ∃ declaration,
    text = declaration +:+ ";"
    ∧ stringify_function_signature globals node false st
      = (Ok declaration, st').
Proof.
  destruct node; try discriminate; cbn [stringify_function_signature];
    intros Hrun.
  all: apply bind_Ok_inv in Hrun as (returns' & st1 & Hret & Hrun).
  all: apply bind_Ok_inv in Hrun as ([] & st2 & Hcheck & Hrun).
  all: apply bind_Ok_inv in Hrun as (decorators & st3 & Hdec & Hrun).
  all: apply bind_Ok_inv in Hrun as (args' & st4 & Hargs & [= <- <-]).
  all: eexists; (split; [reflexivity|]).
  all: rewrite (bind_Ok _ _ _ _ _ Hret), (bind_Ok _ _ _ _ _ Hcheck),
    (bind_Ok _ _ _ _ _ Hdec), (bind_Ok _ _ _ _ _ Hargs); reflexivity.
Qed.

Lemma Oklifier_of_function_Ok func st self st' :
  Oklifier_of_function func st = (Ok self, st') →
  st' = st
  ∧ root self = ast.NModule (source_body func)
  ∧ ∃ entries,
      Forall2 (λ helper entry,
                 helper_entry (Oklifier_of_function helper.2) st
                 = (Ok entry, st))
        (helper_functions (closure_globals func)) entries
      ∧ functions self
        = dict_of (zip (helper_functions (closure_globals func)).*1 entries).
Proof.
  destruct func as [items builtins body].
  cbn [Oklifier_of_function closure_globals source_body].
  unfold inspect_function_closure. intros Hrun.
  apply bind_Ok_inv in Hrun as ([globals' functions'] & st1 & Hrun & [= <- <-]).
  apply bind_Ok_inv in Hrun as ([globals1 functions1] & st2 & Hglobals & Hrun).
  apply inspect_globals_Ok in Hglobals as (-> & entries & Hentries & ->).
  apply bind_Ok_inv in Hrun as ([] & st3 & Hbuiltins & [= <- <- <-]).
  apply check_builtins_quiet in Hbuiltins as ->.
  split; [done|]. split; [done|]. by exists entries.
Qed.

Lemma helper_signature_Ok oklifier st text st' :
  helper_signature oklifier st = (Ok text, st') →
  st' = st
  ∧ ∃ node rest declaration,
      root oklifier = ast.NModule (node :: rest)
      ∧ stringify_function_signature (globals oklifier) node false st
        = (Ok declaration, st)
      ∧ text = declaration +:+ ";".
Proof.
  unfold helper_signature.
  destruct (root oklifier) as [[|node rest]| | | | | | | | |];
    try discriminate.
  intros Hrun.
  pose proof (stringify_function_signature_quiet _ _ _ _ _ _ Hrun) as ->.
  apply stringify_function_signature_semicolon in Hrun as (d & -> & Hd).
  split; [done|]. by exists node, rest, d.
Qed.

Lemma helper_entry_py2okl helper entry st :
  helper_entry (Oklifier_of_function helper) st = (Ok entry, st) →
  forward_declaration helper st (signature entry)
  ∧ py2okl (FunctionObject helper) st = (Ok (source entry), st).
Proof.
  intros Hrun.
  apply helper_entry_Ok in Hrun as (o & st1 & st2 & st3 & Hmake & Hsig & Hsrc).
  pose proof (Oklifier_of_function_Ok _ _ _ _ Hmake) as (-> & Hroot & _).
  apply helper_signature_Ok
    in Hsig as (-> & node & rest & declaration & Hbody & Hdecl & Hsemi).
  split.
  { exists o, node, rest, declaration. split; [done|].
    split; [congruence|done]. }
  destruct (py2okl (FunctionObject helper) st) as [r st'] eqn:Hpy.
  assert (r = Ok (source entry)) as ->.
  { unfold py2okl, on_new_instance in Hpy. cbn [Oklifier_init] in Hpy.
    change {| scope_stack := []; module_globals := module_globals st |}
      with (with_stack [] st) in Hpy.
    rewrite (bind_Ok _ _ _ _ _ Hmake), Hsrc in Hpy. by injection Hpy. }
  by rewrite (py2okl_quiet _ _ _ _ Hpy).
Qed.

Lemma foldl_dict_set_fresh {V} (items acc : list (string * V)) :
  NoDup (acc.*1 ++ items.*1) →
  foldl (λ d item, dict_set item.1 item.2 d) acc items = (acc ++ items)%list.
Proof.
  assert (Hset : ∀ (d : list (string * V)) k v,
            k ∉ d.*1 → dict_set k v d = (d ++ [(k, v)])%list).
  { induction d as [|[k' v'] d IH]; intros k v Hk; simpl; [done|].
    rewrite fmap_cons, not_elem_of_cons in Hk. destruct Hk as [Hne Hk].
    destruct (String.eqb_spec k' k) as [->|_]; [done|].
    by rewrite IH. }
  revert acc. induction items as [|[k v] items IH]; intros acc Hdup; simpl.
  - by rewrite app_nil_r.
  - rewrite fmap_cons in Hdup. simpl in Hdup.
    rewrite Hset.
    + rewrite IH; [by rewrite <- app_assoc|].
      by rewrite fmap_app, <- app_assoc.
    + apply NoDup_app in Hdup as (_ & Hdisj & _). intros Hin.
      apply (Hdisj _ Hin). left.
Qed.

Lemma dict_of_NoDup {V} (items : list (string * V)) :
  NoDup items.*1 → dict_of items = items.
Proof. intros Hdup. by apply (foldl_dict_set_fresh items []). Qed.

(** C8, as stated, fails on [f]: [f] captures [g], which captures [h],
    and the emitted text
    holds the whole text of [g], the signature and the body of [h]
    included, where the layout of the specification has the body of
    [g]: the two texts differ. *)
Lemma emitted_text_not_flat :
  py2okl (FunctionObject def_f) initial_state
  = (Ok (join (NL +:+ NL) ["int g();"; "int h();"; body_h; body_g; body_f]),
     initial_state)
  ∧ spec_emit def_f initial_state
    = (Ok (join (NL +:+ NL) ["int g();"; "int h();"; body_g; body_h; body_f]),
       initial_state)
  ∧ py2okl (FunctionObject def_f) initial_state ≠ spec_emit def_f initial_state.
Proof.
  split; [vm_compute; reflexivity|]. split; [vm_compute; reflexivity|].
  vm_compute. discriminate.
Qed.

(** C8, amended: the emitted text is the concatenation, separated by
    blank lines, of the forward declarations of the helper functions
    the function captures itself, in the order of its closure, each the
    signature of the helper followed by a semicolon; of the full
    emitted text of each of these helpers, in the same order, which is
    what translating that helper alone emits, its own helpers included;
    and of the translated root. *)
Theorem emitted_text_layout func st self st' :
  Oklifier_of_function func st = (Ok self, st') →
  let helpers := helper_functions (closure_globals func) in
  ∃ entries,
    Forall2 (λ helper entry,
               forward_declaration helper.2 st (signature entry)
               ∧ py2okl (FunctionObject helper.2) st
                 = (Ok (source entry), st))
      helpers entries
    ∧ functions self = dict_of (zip helpers.*1 entries)
    ∧ (NoDup helpers.*1 → (functions self).*2 = entries)
    ∧ root self = ast.NModule (source_body func)
    ∧ ∀ st1 root_str st2,
        stringify_node (globals self) (root self) "" st1 = (Ok root_str, st2) →
        to_str self st1
        = (Ok (join (NL +:+ NL)
                 ((signature <$> (functions self).*2)
                  ++ (source <$> (functions self).*2)
                  ++ [root_str])%list), st2).
Proof.
  intros Hrun helpers. subst helpers.
  apply Oklifier_of_function_Ok in Hrun as (-> & Hroot & entries & Hentries & Hfuns).
  exists entries. split; [|split; [done|split; [|split; [done|]]]].
  - eapply Forall2_impl; [exact Hentries|].
    intros helper entry. apply helper_entry_py2okl.
  - intros Hdup. pose proof (Forall2_length _ _ _ Hentries) as Hlen.
    rewrite Hfuns, dict_of_NoDup.
    + apply snd_zip. rewrite length_fmap. lia.
    + rewrite fst_zip; [done|]. rewrite length_fmap. lia.
  - intros st1 root_str st2 Hnode. unfold to_str.
    by rewrite (bind_Ok _ _ _ _ _ Hnode).
Qed.

Lemma emitted_text_layout_witness :
  ∃ entries,
    Forall2 (λ helper entry,
               forward_declaration helper.2 initial_state (signature entry)
               ∧ py2okl (FunctionObject helper.2) initial_state
                 = (Ok (source entry), initial_state))
      [("g", def_g)] entries
    ∧ functions oklifier_f = dict_of (zip ["g"] entries)
    ∧ (NoDup ["g"] → (functions oklifier_f).*2 = entries)
    ∧ root oklifier_f = ast.NModule (source_body def_f)
    ∧ ∀ st1 root_str st2,
        stringify_node (globals oklifier_f) (root oklifier_f) "" st1
        = (Ok root_str, st2) →
        to_str oklifier_f st1
        = (Ok (join (NL +:+ NL)
                 ((signature <$> (functions oklifier_f).*2)
                  ++ (source <$> (functions oklifier_f).*2)
                  ++ [root_str])%list), st2).
Proof.
  apply (emitted_text_layout def_f initial_state oklifier_f initial_state).
  vm_compute. reflexivity.
Defined.

(** * Further properties of the translator *)

(** ** Vocabulary *)

(** The operators [BIN_OP_FORMATS] renders infix, with their symbol. *)
Definition infix_symbol (op : ast.operator) : option string :=
  match op with
  | ast.Add => Some "+" | ast.Sub => Some "-" | ast.Mult => Some "*"
  | ast.Div => Some "/" | ast.Mod => Some "%" | ast.LShift => Some "<<"
  | ast.RShift => Some ">>" | ast.BitOr => Some "|" | ast.BitAnd => Some "&"
  | ast.Pow | ast.FloorDiv | ast.MatMult | ast.BitXor => None
  end.

(** [(a + b) * c] and [a + (b * c)], as the parser builds them. *)
Definition sum_times : ast.expr :=
  ast.BinOp (ast.BinOp (ast.Name "a") ast.Add (ast.Name "b")) ast.Mult
    (ast.Name "c").

Definition plus_product : ast.expr :=
  ast.BinOp (ast.Name "a") ast.Add
    (ast.BinOp (ast.Name "b") ast.Mult (ast.Name "c")).

(** [def scale(a: int) -> int: a = 2 * a; return a] *)
Definition def_scale : ast.stmt :=
  ast.FunctionDef "scale"
    {| ast.args := [{| ast.arg_name := "a";
                       ast.annotation := Some (ast.Name "int") |}];
       ast.vararg := None; ast.kwonlyargs := []; ast.kw_defaults := [];
       ast.kwarg := None; ast.defaults := [] |}
    [ ast.Assign [ast.Name "a"]
        (ast.BinOp (ast.Num (ast.NInt 2)) ast.Mult (ast.Name "a"));
      ast.Return (Some (ast.Name "a")) ]
    [] (Some (ast.Name "int")).

(** ** Strings *)

Lemma append_assoc (s1 s2 s3 : string) :
  (s1 +:+ s2) +:+ s3 = s1 +:+ s2 +:+ s3.
Proof.
  induction s1 as [|c s1 IH]; [reflexivity|].
  change (String c ((s1 +:+ s2) +:+ s3) = String c (s1 +:+ s2 +:+ s3)).
  by rewrite IH.
Qed.

Lemma append_nil_r (s : string) : s +:+ "" = s.
Proof.
  induction s as [|c s IH]; [reflexivity|].
  change (String c (s +:+ "") = String c s). by rewrite IH.
Qed.

(** ** Grouping is lost in binary operations *)

(** X1: the rules of [BIN_OP_FORMATS] put no parentheses around their
    operands, so for infix operators [(x op1 y) op2 z] and
    [x op1 (y op2 z)] are translated to the same text. *)
Theorem binop_grouping_lost globals x y z op1 op2 sym1 sym2 xs ys zs st :
  infix_symbol op1 = Some sym1 →
  infix_symbol op2 = Some sym2 →
  stringify_expr globals x st = (Ok xs, st) →
  stringify_expr globals y st = (Ok ys, st) →
  stringify_expr globals z st = (Ok zs, st) →
  let text := xs +:+ " " +:+ sym1 +:+ " " +:+ ys +:+ " " +:+ sym2 +:+ " " +:+ zs in
  stringify_expr globals (ast.BinOp (ast.BinOp x op1 y) op2 z) st
  = (Ok text, st)
  ∧ stringify_expr globals (ast.BinOp x op1 (ast.BinOp y op2 z)) st
    = (Ok text, st).
Proof.
  intros H1 H2 Hx Hy Hz text. subst text.
  assert (Hfmt : ∀ op sym, infix_symbol op = Some sym →
            ∃ f, BIN_OP_FORMATS op = Some f
                 ∧ ∀ l r, f l r = l +:+ " " +:+ sym +:+ " " +:+ r).
  { intros op sym Hop. destruct op; simplify_eq/=; by eexists. }
  destruct (Hfmt _ _ H1) as (f1 & Hf1 & Hr1).
  destruct (Hfmt _ _ H2) as (f2 & Hf2 & Hr2).
  split; cbn [stringify_expr]; rewrite Hf1, Hf2.
  - erewrite bind_Ok
      by (erewrite bind_Ok by exact Hx; erewrite bind_Ok by exact Hy;
          reflexivity).
    erewrite bind_Ok by exact Hz.
    cbn [mret M_ret]. by rewrite Hr2, Hr1, !append_assoc.
  - erewrite bind_Ok by exact Hx.
    erewrite bind_Ok
      by (erewrite bind_Ok by exact Hy; erewrite bind_Ok by exact Hz;
          reflexivity).
    cbn [mret M_ret]. by rewrite Hr1, Hr2.
Qed.

Lemma binop_grouping_lost_witness :
  stringify_expr ∅ sum_times initial_state = (Ok "a + b * c", initial_state)
  ∧ stringify_expr ∅ plus_product initial_state
    = (Ok "a + b * c", initial_state).
Proof.
  apply (binop_grouping_lost ∅ (ast.Name "a") (ast.Name "b") (ast.Name "c")
           ast.Add ast.Mult "+" "*" "a" "b" "c" initial_state);
    reflexivity.
Defined.

(** ** Declarations and the assignments after them *)

Lemma is_defined_in_app stack1 stack2 var_name :
  is_defined_in (stack1 ++ stack2) var_name
  = is_defined_in stack1 var_name || is_defined_in stack2 var_name.
Proof.
  induction stack1 as [|scope stack1 IH]; simpl; [done|].
  by case_bool_decide.
Qed.


Lemma stringify_stmt_Assign_undefined globals id value indent st :
  is_defined_in (scope_stack st) (stringify_Name globals id) = false →
  stringify_stmt globals (ast.Assign [ast.Name id] value) indent st
  = (Raise (TransformError "Cannot handle untyped variables"),
     record_error (ast.NStmt (ast.Assign [ast.Name id] value)) st).
Proof.
  intros Hdef. cbn [stringify_stmt].
  do 2 (erewrite bind_Ok by reflexivity). rewrite Hdef.
  cbn [is_Name andb negb]. by rewrite raise_error_run.
Qed.



(** X3: the parameters of a function are not declared in the scope of
    its body: a function whose body starts with a plain assignment to a
    bare name that the enclosing scopes do not define is never
    translated, whatever its parameters are. *)
Theorem function_body_assignment_needs_declaration globals name args id value
    rest decorator_list returns indent st :
  is_defined_in (scope_stack st) (stringify_Name globals id) = false →
  ¬ ∃ text st',
      stringify_stmt globals
        (ast.FunctionDef name args (ast.Assign [ast.Name id] value :: rest)
           decorator_list returns) indent st
      = (Ok text, st').
Proof.
  intros Hdef (text & st' & Hrun). cbn [stringify_stmt] in Hrun.
  apply bind_Ok_inv in Hrun as (func_str & st1 & Hsig & Hrun).
  apply stringify_function_signature_quiet in Hsig as ->.
  apply bind_Ok_inv in Hrun as (body' & st2 & Hbody & _).
  unfold stringify_body_of in Hbody.
  apply bind_Ok_inv in Hbody as (block & st3 & Hblock & _).
  unfold stringify_block_of in Hblock.
  apply bind_Ok_inv in Hblock as ([] & st4 & Hpush & Hblock).
  rewrite push_scope_run in Hpush. injection Hpush as <-.
  apply bind_Ok_inv in Hblock as (strs & st5 & Hstrs & _).
  rewrite mapM_cons in Hstrs.
  apply bind_Ok_inv in Hstrs as (str & st6 & Hassign & _).
  rewrite stringify_stmt_Assign_undefined in Hassign; [discriminate|].
  cbn [scope_stack with_stack]. rewrite is_defined_in_app, Hdef. reflexivity.
Qed.

Lemma function_body_assignment_needs_declaration_witness :
  ¬ ∃ text st', stringify_stmt ∅ def_scale "" one_scope = (Ok text, st').
Proof.
  apply (function_body_assignment_needs_declaration ∅ "scale" _ "a").
  reflexivity.
Defined.

(** ** Function signatures *)

(** [def add(a: int, b: int) -> int], and the same as a kernel. *)
Definition add_arguments : ast.arguments :=
  {| ast.args := [ {| ast.arg_name := "a";
                      ast.annotation := Some (ast.Name "int") |};
                   {| ast.arg_name := "b";
                      ast.annotation := Some (ast.Name "int") |} ];
     ast.vararg := None; ast.kwonlyargs := []; ast.kw_defaults := [];
     ast.kwarg := None; ast.defaults := [] |}.

Definition def_add : ast.stmt :=
  ast.FunctionDef "add" add_arguments
    [ast.Return (Some (ast.BinOp (ast.Name "a") ast.Add (ast.Name "b")))]
    [] (Some (ast.Name "int")).

Definition kernel_add : ast.stmt :=
  ast.FunctionDef "add" add_arguments [ast.Pass]
    [ast.Attribute (ast.Name "okl") "kernel"] (Some (ast.NameConstant ast.CNone)).

(** [def añadir(a: int, b: int) -> int], whose name has six
    characters and seven bytes. *)
Definition def_anadir : ast.stmt :=
  ast.FunctionDef "añadir" add_arguments [ast.Pass] []
    (Some (ast.Name "int")).

(** The parameters that are rendered: positional, then keyword-only. *)
Definition parameters (a : ast.arguments) : list ast.arg :=
  (ast.args a ++ ast.kwonlyargs a)%list.

Lemma arguments_loop_joined globals arg_count indent items strs st :
  Forall2 (λ arg arg_str,
             stringify_annotation globals (ast.annotation arg)
               (ast.arg_name arg) st = (Ok arg_str, st)
             ∧ arg_str ≠ ast.arg_name arg) items strs →
  ∀ index args_str,
    (index + length items = arg_count)%nat →
    arguments_loop globals arg_count indent (enumerate_from index items)
      args_str st
    = (Ok (args_str +:+ join ("," +:+ NL +:+ indent) strs), st).
Proof.
  induction 1 as [|arg arg_str items strs [Harg Hne] Hrest IH];
    intros index args_str Hcount; cbn [enumerate_from arguments_loop].
  - by rewrite append_nil_r.
  - erewrite bind_Ok by exact Harg.
    apply String.eqb_neq in Hne. rewrite Hne.
    erewrite bind_Ok by reflexivity.
    rewrite (IH (S index)) by (simpl in Hcount; lia).
    destruct Hrest as [|arg' arg_str' items' strs' _ _].
    + assert ((index <? arg_count - 1)%nat = false) as ->
        by (apply Nat.ltb_ge; simpl in Hcount; lia).
      unfold join. simpl. by rewrite append_nil_r.
    + assert ((index <? arg_count - 1)%nat = true) as ->
        by (apply Nat.ltb_lt; simpl in Hcount; lia).
      f_equal. unfold join.
      change (String.concat ?sep (arg_str :: arg_str' :: strs'))
        with (arg_str +:+ sep +:+ String.concat sep (arg_str' :: strs')).
      by rewrite !append_assoc.
Qed.

(** X4: a signature whose return type, decorators and parameters are
    all rendered is the decorators, the return type, the name, and
    between parentheses the parameter declarations in their order,
    separated by a comma and a line break, each continuation line
    indented by as many spaces as the text up to and with the opening
    parenthesis has characters (code points, not bytes). *)
Theorem function_signature_layout globals name args body decorator_list
    returns semicolon returns' decorators strs st :
  ast.kwarg args = None → ast.vararg args = None →
  ast.defaults args = [] → ast.kw_defaults args = [] →
  stringify_annotation globals returns "" st = (Ok returns', st) →
  returns' ≠ "" →
  decorators_loop globals decorator_list "" st = (Ok decorators, st) →
  Forall2 (λ arg arg_str,
             stringify_annotation globals (ast.annotation arg)
               (ast.arg_name arg) st = (Ok arg_str, st)
             ∧ arg_str ≠ ast.arg_name arg) (parameters args) strs →
  let opening := decorators +:+ returns' +:+ " " +:+ name +:+ "(" in
  let separator := "," +:+ NL +:+ spaces (len opening) in
  stringify_function_signature globals
    (ast.FunctionDef name args body decorator_list returns) semicolon st
  = (Ok (opening +:+ join separator strs +:+ ")"
         +:+ (if semicolon then ";" else "")), st).
Proof.
  intros Hkwarg Hvararg Hdefaults Hkw Hret Hne Hdec Hargs opening separator.
  cbn [stringify_function_signature].
  erewrite bind_Ok by exact Hret.
  apply String.eqb_neq in Hne. unfold nonempty. rewrite Hne. cbn [negb].
  erewrite bind_Ok by reflexivity.
  erewrite bind_Ok by exact Hdec.
  assert (Hloop : stringify_Arguments globals args
                    (spaces (len opening)) st
                  = (Ok (join separator strs), st)).
  { unfold stringify_Arguments. rewrite Hkwarg, Hvararg, Hdefaults, Hkw.
    do 3 (erewrite bind_Ok by reflexivity).
    apply (arguments_loop_joined _ _ _ _ _ _ Hargs 0%nat ""). reflexivity. }
  erewrite bind_Ok by exact Hloop.
  cbn [mret M_ret]. fold opening. destruct semicolon.
  - by rewrite !append_assoc.
  - by rewrite append_nil_r.
Qed.

Lemma function_signature_layout_witness :
  stringify_function_signature ∅ def_add false initial_state
  = (Ok ("int add(int a," +:+ NL +:+ "        int b)"), initial_state)
  ∧ stringify_function_signature ∅ kernel_add true initial_state
    = (Ok ("@kernel void add(int a," +:+ NL +:+ "                 int b);"),
       initial_state)
  ∧ stringify_function_signature ∅ def_anadir false initial_state
    = (Ok ("int añadir(int a," +:+ NL +:+ "           int b)"),
       initial_state).
Proof.
  split; [|split].
  - apply (function_signature_layout ∅ "add" add_arguments _ [] _ false
             "int" "" ["int a"; "int b"] initial_state);
      try reflexivity; try discriminate.
    repeat constructor; discriminate.
  - apply (function_signature_layout ∅ "add" add_arguments _
             [ast.Attribute (ast.Name "okl") "kernel"] _ true
             "void" "@kernel " ["int a"; "int b"] initial_state);
      try reflexivity; try discriminate.
    repeat constructor; discriminate.
  - apply (function_signature_layout ∅ "añadir" add_arguments _ [] _ false
             "int" "" ["int a"; "int b"] initial_state);
      try reflexivity; try discriminate.
    repeat constructor; discriminate.
Defined.

Lemma arguments_loop_annotated globals arg_count indent items :
  ∀ args_str st text st',
    arguments_loop globals arg_count indent items args_str st = (Ok text, st') →
    Forall (λ item : nat * ast.arg, ast.annotation item.2 ≠ None) items.
Proof.
  induction items as [|[index arg] items IH]; intros args_str st text st' Hrun;
    [constructor|].
  cbn [arguments_loop] in Hrun.
  apply bind_Ok_inv in Hrun as (arg_str & st1 & Harg & Hrun).
  apply bind_Ok_inv in Hrun as ([] & st2 & Hcheck & Hrun).
  constructor; [|by eapply IH].
  simpl. intros Hnone. rewrite Hnone in Harg. injection Harg as <- <-.
  rewrite String.eqb_refl in Hcheck. by rewrite raise_error_run in Hcheck.
Qed.

Lemma enumerate_from_snd {A} (l : list A) index :
  (enumerate_from index l).*2 = l.
Proof.
  revert index. induction l as [|x l IH]; intros index; simpl; [done|].
  by rewrite IH.
Qed.

Lemma decorators_loop_kernel globals items :
  ∀ decorators st text st',
    decorators_loop globals items decorators st = (Ok text, st') →
    Forall (λ decorator,
              stringify_expr globals decorator st = (Ok "okl.kernel", st))
      items.
Proof.
  induction items as [|decorator items IH]; intros decorators st text st' Hrun;
    [constructor|].
  cbn [decorators_loop] in Hrun.
  apply bind_Ok_inv in Hrun as (attr & st1 & Hattr & Hrun).
  pose proof (stringify_expr_quiet _ _ _ _ _ Hattr) as ->.
  unfold OKL_DECORATORS in Hrun.
  destruct (String.eqb_spec ("@" +:+ attr) "@okl.kernel") as [Heq|];
    [|by rewrite raise_error_run in Hrun].
  assert (attr = "okl.kernel") as -> by (injection Heq as Heq; exact Heq).
  constructor; [done|by eapply IH].
Qed.

(** X5: a function signature is rendered only if the function has a
    return annotation, no [**kwargs], no [*args], no default values,
    an annotation on every parameter, and no decorator other than
    [okl.kernel]. *)
Theorem function_signature_requirements globals name args body decorator_list
    returns semicolon st text st' :
  stringify_function_signature globals
    (ast.FunctionDef name args body decorator_list returns) semicolon st
  = (Ok text, st') →
  returns ≠ None
  ∧ ast.kwarg args = None ∧ ast.vararg args = None
  ∧ ast.defaults args = [] ∧ ast.kw_defaults args = []
  ∧ Forall (λ arg, ast.annotation arg ≠ None) (parameters args)
  ∧ Forall (λ decorator,
              stringify_expr globals decorator st = (Ok "okl.kernel", st))
      decorator_list.
Proof.
  intros Hrun. cbn [stringify_function_signature] in Hrun.
  apply bind_Ok_inv in Hrun as (returns' & st1 & Hret & Hrun).
  pose proof (stringify_annotation_quiet _ _ _ _ _ _ Hret) as ->.
  apply bind_Ok_inv in Hrun as ([] & st2 & Hcheck & Hrun).
  assert (returns ≠ None ∧ st2 = st) as [Hreturns ->].
  { destruct returns as [node|].
    - split; [done|]. destruct (nonempty returns'); [by injection Hcheck|].
      by rewrite raise_error_run in Hcheck.
    - injection Hret as <-. cbn [nonempty String.eqb negb] in Hcheck.
      by rewrite raise_error_run in Hcheck. }
  apply bind_Ok_inv in Hrun as (decorators & st3 & Hdec & Hrun).
  pose proof (decorators_loop_kernel _ _ _ _ _ _ Hdec) as Hdecs.
  apply bind_Ok_inv in Hrun as (args' & st4 & Hargs & _).
  unfold stringify_Arguments in Hargs.
  apply bind_Ok_inv in Hargs as ([] & st5 & Hkwarg & Hargs).
  destruct (ast.kwarg args); [by rewrite raise_error_run in Hkwarg|].
  apply bind_Ok_inv in Hargs as ([] & st6 & Hvararg & Hargs).
  destruct (ast.vararg args); [by rewrite raise_error_run in Hvararg|].
  apply bind_Ok_inv in Hargs as ([] & st7 & Hdefaults & Hargs).
  destruct (bool_decide_reflect (ast.defaults args = [])) as [Hd|];
    cbn [negb orb] in Hdefaults;
    [|by rewrite raise_error_run in Hdefaults].
  destruct (bool_decide_reflect (ast.kw_defaults args = [])) as [Hk|];
    cbn [negb orb] in Hdefaults;
    [|by rewrite raise_error_run in Hdefaults].
  apply arguments_loop_annotated in Hargs.
  repeat (split; [done|]). split; [|done].
  unfold parameters. rewrite <- (enumerate_from_snd (_ ++ _) 0).
  by apply Forall_fmap.
Qed.

Lemma function_signature_requirements_witness :
  Some (ast.Name "int") ≠ None
  ∧ ast.kwarg add_arguments = None ∧ ast.vararg add_arguments = None
  ∧ ast.defaults add_arguments = [] ∧ ast.kw_defaults add_arguments = []
  ∧ Forall (λ arg, ast.annotation arg ≠ None) (parameters add_arguments)
  ∧ Forall (λ decorator,
              stringify_expr ∅ decorator initial_state
              = (Ok "okl.kernel", initial_state)) [].
Proof.
  apply (function_signature_requirements ∅ "add" add_arguments
           [ast.Return (Some (ast.BinOp (ast.Name "a") ast.Add (ast.Name "b")))]
           [] (Some (ast.Name "int")) false initial_state
           ("int add(int a," +:+ NL +:+ "        int b)") initial_state).
  reflexivity.
Defined.

(** ** What inspection records in [self.globals] *)

(** The captured globals of a class of the table, with the name of the
    class in the target language. *)
Fixpoint typed_globals {F} (items : list (string * value F))
  : list (string * string) :=
  match items with
  | [] => []
  | (name, Instance type) :: items' =>
      match truthy (VALID_GLOBAL_VALUE_TYPES type) with
      | Some type_str => (name, type_str) :: typed_globals items'
      | None => typed_globals items'
      end
  | (_, Function _) :: items' => typed_globals items'
  end.

(** A function that reads [N], an [np.int32], [okl], a module, and
    [eps], a [float], and calls [h]. *)
Definition reads_N_eps : pyfunction :=
  Def [ ("N", Instance np_int32); ("okl", Instance (other_type "module"));
        ("h", Function def_h); ("eps", Instance py_float) ]
    ["range"] [].

(** [Oklifier(reads_N_eps)], once constructed. *)
Definition oklifier_reads_N_eps : Oklifier :=
  {| globals := {[ "N" := "int"; "eps" := "double" ]};
     functions := [("h", {| signature := "int h();"; source := body_h |})];
     root := ast.NModule [] |}.

Lemma truthy_VALID_GLOBAL_VALUE_TYPES type :
  truthy (VALID_GLOBAL_VALUE_TYPES type) = VALID_GLOBAL_VALUE_TYPES type.
Proof. by destruct type. Qed.

Lemma inspect_globals_globals items :
  ∀ globals functions st globals' functions' st',
    inspect_globals Oklifier_of_function items globals functions st
    = (Ok (globals', functions'), st') →
    globals'
    = foldl (λ g item, <[item.1 := item.2]> g) globals (typed_globals items).
Proof.
  induction items as [|[name value] items IH];
    intros globals functions st globals' functions' st' Hrun;
    cbn [inspect_globals typed_globals] in *.
  - by injection Hrun as <- _ _.
  - destruct value as [type|helper]; cbn [truthy] in *.
    + destruct (truthy (VALID_GLOBAL_VALUE_TYPES type)); [by eapply IH|].
      case_bool_decide; [by eapply IH|discriminate].
    + apply bind_Ok_inv in Hrun as (entry & st1 & _ & Hrun). by eapply IH.
Qed.

Lemma typed_globals_elem {F} (items : list (string * value F)) name type_str :
  (name, type_str) ∈ typed_globals items
  ↔ ∃ type, (name, Instance type) ∈ items
            ∧ VALID_GLOBAL_VALUE_TYPES type = Some type_str.
Proof.
  induction items as [|[name' value] items IH]; cbn [typed_globals].
  - split; [by intros ?%elem_of_nil|]. by intros (? & ?%elem_of_nil & _).
  - destruct value as [type'|helper].
    + rewrite truthy_VALID_GLOBAL_VALUE_TYPES.
      destruct (VALID_GLOBAL_VALUE_TYPES type') as [type_str'|] eqn:Htype.
      * rewrite elem_of_cons, IH. split.
        -- intros [[= -> ->]|(type & Hin & Hvalid)].
           ++ exists type'. split; [left|done].
           ++ exists type. split; [by right|done].
        -- intros (type & Hin & Hvalid).
           apply elem_of_cons in Hin as [[= -> ->]|Hin].
           ++ left. congruence.
           ++ right. by exists type.
      * rewrite IH. split.
        -- intros (type & Hin & Hvalid). exists type. split; [by right|done].
        -- intros (type & Hin & Hvalid).
           apply elem_of_cons in Hin as [[= -> ->]|Hin]; [congruence|].
           by exists type.
    + rewrite IH. split.
      * intros (type & Hin & Hvalid). exists type. split; [by right|done].
      * intros (type & Hin & Hvalid).
        apply elem_of_cons in Hin as [[=]|Hin]. by exists type.
Qed.

Lemma typed_globals_names {F} (items : list (string * value F)) name :
  name ∈ (typed_globals items).*1 → name ∈ items.*1.
Proof.
  intros Hin. apply list_elem_of_fmap in Hin as ([name' type_str] & -> & Hin).
  apply typed_globals_elem in Hin as (type & Hin & _).
  apply list_elem_of_fmap. by exists (name', Instance type).
Qed.

Lemma typed_globals_NoDup {F} (items : list (string * value F)) :
  NoDup items.*1 → NoDup (typed_globals items).*1.
Proof.
  induction items as [|[name value] items IH]; cbn [typed_globals]; [done|].
  rewrite fmap_cons. intros [Hname Hdup]%NoDup_cons.
  destruct value as [type|helper]; [|by apply IH].
  destruct (truthy (VALID_GLOBAL_VALUE_TYPES type)); [|by apply IH].
  rewrite fmap_cons. apply NoDup_cons. split; [|by apply IH].
  intros Hin. by apply Hname, typed_globals_names.
Qed.

Lemma foldl_insert_lookup (items : list (string * string)) :
  ∀ (g : gmap string string) name type_str,
    NoDup items.*1 →
    (∀ k, k ∈ items.*1 → g !! k = None) →
    foldl (λ g item, <[item.1 := item.2]> g) g items !! name = Some type_str
    ↔ g !! name = Some type_str ∨ (name, type_str) ∈ items.
Proof.
  induction items as [|[k v] items IH]; intros g name type_str Hdup Hfresh;
    simpl.
  - split; [by left|]. by intros [?|?%elem_of_nil].
  - rewrite fmap_cons in Hdup. apply NoDup_cons in Hdup as [Hk Hdup].
    rewrite IH; [|done|].
    + rewrite elem_of_cons. destruct (decide (name = k)) as [->|Hne].
      * rewrite lookup_insert_eq, (Hfresh k) by (rewrite fmap_cons; left).
        split.
        -- intros [[= ->]|Hin]; [right; by left|].
           destruct Hk. apply list_elem_of_fmap. by exists (k, type_str).
        -- intros [?|[[= ->]|Hin]]; [done|by left|by right].
      * rewrite lookup_insert_ne by done. split.
        -- intros [?|?]; [by left|right; by right].
        -- intros [?|[[= ? ?]|?]]; [by left|done|by right].
    + intros k' Hk'. rewrite lookup_insert_ne by (intros ->; done).
      apply Hfresh. rewrite fmap_cons. by right.
Qed.

(** X6: when the construction of an [Oklifier] for a function
    succeeds, [self.globals] maps exactly the captured globals whose
    class is in [VALID_GLOBAL_VALUE_TYPES], each to the type name of
    its class; captured functions and the marker [okl] are not in it. *)
Theorem inspection_records_typed_globals func st self st' :
  Oklifier_of_function func st = (Ok self, st') →
  NoDup (closure_globals func).*1 →
  ∀ name type_str,
    globals self !! name = Some type_str
    ↔ ∃ type, (name, Instance type) ∈ closure_globals func
              ∧ VALID_GLOBAL_VALUE_TYPES type = Some type_str.
Proof.
  destruct func as [items builtins body].
  cbn [Oklifier_of_function closure_globals]. unfold inspect_function_closure.
  intros Hrun Hdup name type_str.
  apply bind_Ok_inv in Hrun as ([globals' functions'] & st1 & Hrun & [= <- _]).
  apply bind_Ok_inv in Hrun as ([globals1 functions1] & st2 & Hglobals & Hrun).
  apply bind_Ok_inv in Hrun as ([] & st3 & _ & [= <- _ _]).
  apply inspect_globals_globals in Hglobals as ->. cbn [globals].
  rewrite foldl_insert_lookup; [|by apply typed_globals_NoDup|done].
  rewrite lookup_empty, typed_globals_elem.
  split; [by intros [?|?]|by right].
Qed.

Lemma inspection_records_typed_globals_witness :
  globals oklifier_reads_N_eps !! "eps" = Some "double"
  ↔ ∃ type, ("eps", Instance type) ∈ closure_globals reads_N_eps
            ∧ VALID_GLOBAL_VALUE_TYPES type = Some "double".
Proof.
  apply (inspection_records_typed_globals reads_N_eps initial_state
           oklifier_reads_N_eps initial_state).
  - vm_compute. reflexivity.
  - apply (bool_decide_unpack _). vm_compute. exact I.
Defined.

(** ** Translating a batch *)

(** [py2okl(obj)] for an iterable:
    [[Oklifier(item).to_str() for item in obj]]. *)
Definition py2okl_each (items : list pyobject) : M (list string) :=
  mapM py2okl items.


(** X12: the first item of a batch that fails ends the batch with its
    exception, and with the state that item leaves: the texts of the
    items before it are lost and the items after it are not looked
    at. *)
Lemma py2okl_each_first_failure done_items item items st texts e st' :
  Forall2 (λ item text, py2okl item st = (Ok text, st)) done_items texts →
  py2okl item st = (Raise e, st') →
  py2okl_each (done_items ++ item :: items) st = (Raise e, st').
Proof.
  unfold py2okl_each. induction 1 as [|item' text items' texts' Hitem _ IH];
    intros Hfail; simpl app; rewrite mapM_cons.
  - by erewrite bind_Raise by exact Hfail.
  - erewrite bind_Ok by exact Hitem. by erewrite bind_Raise by exact (IH Hfail).
Qed.

Lemma py2okl_each_first_failure_witness :
  py2okl_each ([FunctionObject def_h] ++ OtherObject :: [FunctionObject def_g])
    initial_state
  = (Raise (TypeError "Unable to oklify object"), initial_state).
Proof.
  apply (py2okl_each_first_failure [FunctionObject def_h] OtherObject
           [FunctionObject def_g] initial_state [body_h]).
  - repeat constructor.
  - reflexivity.
Defined.

(** ** Pointer annotations *)

(** [depth] times [*]. *)
Fixpoint stars (depth : nat) : string :=
  match depth with
  | O => ""
  | S depth' => "*" +:+ stars depth'
  end.

(** [List[List[...[base]]]], [depth] times [List]. *)
Fixpoint pointer_annotation (depth : nat) (base : string) : ast.expr :=
  match depth with
  | O => ast.Name base
  | S depth' =>
      ast.Subscript (ast.Name "List")
        (ast.Index (pointer_annotation depth' base))
  end.

Lemma length_append (s t : string) :
  String.length (s +:+ t) = (String.length s + String.length t)%nat.
Proof.
  induction s as [|c s IH]; [reflexivity|].
  change (S (String.length (s +:+ t)) = S (String.length s + String.length t)).
  by rewrite IH.
Qed.

Lemma substring_append_skip (s t : string) n :
  String.substring (String.length s) n (s +:+ t) = String.substring 0 n t.
Proof. induction s as [|c s IH]; [reflexivity|exact IH]. Qed.

Lemma endswith_star (s : string) : endswith "*" (s +:+ "*") = true.
Proof.
  unfold endswith. rewrite length_append. simpl String.length.
  replace (String.length s + 1 - 1)%nat with (String.length s) by lia.
  rewrite substring_append_skip. simpl.
  destruct (String.length s + 1)%nat eqn:Hlen; [lia|reflexivity].
Qed.

Lemma stars_snoc depth : stars (S depth) = stars depth +:+ "*".
Proof.
  induction depth as [|depth IH]; [reflexivity|].
  change (stars (S (S depth))) with ("*" +:+ stars (S depth)).
  rewrite IH at 1. reflexivity.
Qed.

(** X8: an annotation of [depth] nested [List] around a type name is
    rendered as the type, one space, [depth] stars and the variable:
    a star is appended without a further space once the text ends in
    one. *)
Theorem pointer_annotation_text globals base depth var_name st :
  globals !! "List" = None →
  endswith "*" (stringify_Name globals base) = false →
  stringify_annotation_node globals (pointer_annotation (S depth) base)
    var_name st
  = (Ok (stringify_Name globals base +:+ " " +:+ stars (S depth)
         +:+ var_name), st).
Proof.
  intros HList Hbase. revert var_name.
  assert (Hhead : ∀ st, stringify_expr globals (ast.Name "List") st
                        = (Ok "List", st)).
  { intros st0. cbn [stringify_expr]. unfold stringify_Name.
    by rewrite HList. }
  induction depth as [|depth IH]; intros var_name;
    cbn [stringify_annotation_node pointer_annotation];
    erewrite bind_Ok by apply Hhead;
    change (String.eqb "List" "List") with true; cbv iota.
  - unfold py_to_c_type. cbn [nonempty String.eqb negb mret M_ret].
    erewrite bind_Ok by reflexivity. rewrite Hbase.
    cbn [mret M_ret]. by rewrite !append_assoc.
  - erewrite bind_Ok by apply (IH "").
    rewrite append_nil_r.
    replace (stringify_Name globals base +:+ " " +:+ stars (S depth))
      with ((stringify_Name globals base +:+ " " +:+ stars depth) +:+ "*")
      by (by rewrite stars_snoc, !append_assoc).
    rewrite endswith_star. cbn [mret M_ret].
    rewrite (stars_snoc (S depth)), !append_assoc.
    by rewrite <- (append_assoc (stars depth)), <- stars_snoc.
Qed.

Lemma pointer_annotation_text_witness :
  stringify_annotation_node ∅ (pointer_annotation 2 "float") "x" initial_state
  = (Ok "float **x", initial_state).
Proof.
  refine (eq_trans
            (pointer_annotation_text ∅ "float" 1 "x" initial_state _ _) _);
    reflexivity.
Defined.

(** ** [pass] leaves no trace *)

Lemma mapM_app_run {A B} (f : A → M B) l1 l2 st :
  mapM f (l1 ++ l2) st
  = match mapM f l1 st with
    | (Ok ys1, st1) =>
        match mapM f l2 st1 with
        | (Ok ys2, st2) => (Ok (ys1 ++ ys2)%list, st2)
        | (Raise e, st2) => (Raise e, st2)
        end
    | (Raise e, st1) => (Raise e, st1)
    end.
Proof.
  revert st. induction l1 as [|x l1 IH]; intros st.
  - rewrite mapM_nil. simpl. by destruct (mapM f l2 st) as [[ys2|e] st2].
  - simpl app. rewrite !mapM_cons.
    rewrite (bind_run (f x)), (bind_run (f x) _ st).
    destruct (f x st) as [[y|e] st1]; [|done].
    rewrite !bind_run, IH.
    destruct (mapM f l1 st1) as [[ys1|e] st2]; [|done].
    cbn [mret M_ret].
    by destruct (mapM f l2 st2) as [[ys2|e] st3].
Qed.

(** X9: a [pass] statement anywhere in a block changes neither the
    text of the block nor what its translation does to the state,
    whether the translation succeeds or fails. *)
Theorem pass_leaves_no_trace globals before after indent st :
  stringify_block globals (before ++ ast.Pass :: after) indent st
  = stringify_block globals (before ++ after) indent st.
Proof.
  unfold stringify_block, stringify_block_of.
  rewrite !bind_run, push_scope_run, !bind_run, !mapM_app_run.
  match goal with
  | |- context [mapM ?f before ?st0] =>
      destruct (mapM f before st0) as [[strs1|e] st1]; [|done]
  end.
  rewrite mapM_cons, bind_run. cbn [stringify_stmt mret M_ret].
  rewrite bind_run.
  match goal with
  | |- context [mapM ?f after st1] =>
      destruct (mapM f after st1) as [[strs2|e] st2]; [|done]
  end.
  cbn [mret M_ret]. rewrite !List.filter_app. reflexivity.
Qed.

(** ** The expressions that are translated *)

(** The expressions [stringify_node] has a rule for all the way down:
    names, numbers and constants; attributes, calls, lists, boolean
    and unary operations of such expressions; binary operations with
    an operator of [BIN_OP_FORMATS]; subscripts by an index; and
    comparisons with one operator of [COMPARE_OP_STR] and at most one
    comparator. *)
Fixpoint supported (node : ast.expr) : bool :=
  match node with
  | ast.Attribute value _ => supported value
  | ast.BinOp lhs op rhs =>
      bool_decide (is_Some (BIN_OP_FORMATS op)) && supported lhs
      && supported rhs
  | ast.BoolOp _ values => forallb supported values
  | ast.Call func args => forallb supported args && supported func
  | ast.Compare lhs ops comparators =>
      match ops with
      | [op] =>
          bool_decide (is_Some (COMPARE_OP_STR (OpClass op))) && supported lhs
          && forallb supported comparators
          && (length comparators <=? 1)%nat
      | _ => false
      end
  | ast.List elts => forallb supported elts
  | ast.Name _ | ast.NameConstant _ | ast.Num _ => true
  | ast.Subscript value (ast.Index index) => supported value && supported index
  | ast.Subscript _ _ => false
  | ast.UnaryOp _ operand => supported operand
  | ast.Str _ | ast.Tuple _ | ast.OtherExpr _ => false
  end.

(** A run that succeeds and leaves the state as it was. *)
Definition succeeds {A} (m : M A) (st : state) : Prop :=
  ∃ a, m st = (Ok a, st).

Lemma succeeds_ret {A} (a : A) st : succeeds (mret a) st.
Proof. by exists a. Qed.

Lemma succeeds_raise_error {A} node message st :
  ¬ succeeds (raise_error (A:=A) node message) st.
Proof. intros [a H]. by rewrite raise_error_run in H. Qed.

Lemma succeeds_bind {A B} (m : M A) (f : A → M B) (Q : Prop) st :
  quiet m →
  (∀ a, succeeds (f a) st ↔ Q) →
  succeeds (m ≫= f) st ↔ succeeds m st ∧ Q.
Proof.
  intros Hm Hf. split.
  - intros [b Hrun]. apply bind_Ok_inv in Hrun as (a & st1 & Ha & Hb).
    pose proof (Hm _ _ _ Ha) as ->. split; [by exists a|].
    apply (Hf a). by exists b.
  - intros [[a Ha] HQ]. apply (Hf a) in HQ as [b Hb]. exists b.
    by rewrite (bind_Ok _ _ _ _ _ Ha).
Qed.

Lemma succeeds_bind_ret {A B} (m : M A) (g : A → B) st :
  quiet m → succeeds (a ← m; mret (g a)) st ↔ succeeds m st.
Proof.
  intros Hm. rewrite (succeeds_bind m _ True); [tauto|done|].
  intros a. split; [done|]. intros _. apply succeeds_ret.
Qed.

Lemma mapM_quiet {A B} (f : A → M B) l :
  (∀ x, quiet (f x)) → quiet (mapM f l).
Proof.
  intros Hf. apply respects_quiet, respects_mapM_all.
  - by intros st _.
  - intros st st1 o st' H1 H2 Ho. rewrite (H2 Ho). by apply H1.
  - intros x st. destruct (f x st) as [[y|e] st'] eqn:Hrun; simpl; [|done].
    intros _. by apply (Hf x st y).
Qed.

Lemma succeeds_mapM {A B} (f : A → M B) l st :
  (∀ x, quiet (f x)) →
  succeeds (mapM f l) st ↔ Forall (λ x, succeeds (f x) st) l.
Proof.
  intros Hf. induction l as [|x l IH].
  - split; [constructor|]. intros _. apply succeeds_ret.
  - rewrite mapM_cons, Forall_cons.
    rewrite (succeeds_bind (f x) _ (Forall (λ x, succeeds (f x) st) l));
      [done|apply Hf|].
    intros y. rewrite succeeds_bind_ret by (by apply mapM_quiet). apply IH.
Qed.

Lemma mapM_Ok_length {A B} (f : A → M B) l :
  ∀ st ys st', mapM f l st = (Ok ys, st') → length ys = length l.
Proof.
  induction l as [|x l IH]; intros st ys st' Hrun.
  - by injection Hrun as <- _.
  - rewrite mapM_cons in Hrun.
    apply bind_Ok_inv in Hrun as (y & st1 & _ & Hrun).
    apply bind_Ok_inv in Hrun as (ys' & st2 & Hrest & [= <- _]).
    simpl. by rewrite (IH _ _ _ Hrest).
Qed.

Lemma compare_join_single s lhs' comparators' st :
  succeeds (compare_join [OpStr s] (Some (lhs' :: comparators'))) st
  ↔ (length comparators' ≤ 1)%nat.
Proof.
  destruct comparators' as [|c1 [|c2 rest]]; simpl length.
  - split; [lia|]. intros _. by eexists.
  - split; [lia|]. intros _. by eexists.
  - split; [|lia]. intros [text Hrun].
    assert (compare_join [OpStr s] (Some (lhs' :: c1 :: c2 :: rest)) st
            = (Raise IndexError, st)) as Hfail by reflexivity.
    congruence.
Qed.

Lemma mapM_compare_lookup_single op sym st :
  COMPARE_OP_STR (OpClass op) = Some sym →
  mapM compare_lookup [OpClass op] st = (Ok [OpStr sym], st).
Proof.
  intros Hop. rewrite mapM_cons. unfold compare_lookup. by rewrite Hop.
Qed.

Section supported.

Context (globals : gmap string string).

Lemma succeeds_all_supported (nodes : list ast.expr) st :
  list_all ast.expr
    (λ node, ∀ st, succeeds (stringify_expr globals node) st
                   ↔ supported node = true) nodes →
  succeeds (mapM (stringify_expr globals) nodes) st
  ↔ forallb supported nodes = true.
Proof.
  intros Hall.
  rewrite succeeds_mapM by (intros node; apply stringify_expr_quiet).
  induction Hall as [|node Hnode nodes Hnodes IH]; simpl.
  - split; [done|constructor].
  - by rewrite Forall_cons, andb_true_iff, Hnode, IH.
Qed.

Lemma succeeds_operands (lhs : ast.expr) (comparators : list ast.expr) st :
  (∀ st, succeeds (stringify_expr globals lhs) st ↔ supported lhs = true) →
  list_all ast.expr
    (λ node, ∀ st, succeeds (stringify_expr globals node) st
                   ↔ supported node = true) comparators →
  ∀ values st',
    (lhs' ← stringify_expr globals lhs;
     comparators' ← mapM (stringify_expr globals) comparators;
     mret (lhs' :: comparators')) st = (Ok values, st') →
    st' = st
    ∧ supported lhs = true ∧ forallb supported comparators = true
    ∧ length values = S (length comparators).
Proof.
  intros Hlhs Hall values st' Hrun.
  apply bind_Ok_inv in Hrun as (lhs' & st1 & Hl & Hrun).
  pose proof (stringify_expr_quiet _ _ _ _ _ Hl) as ->.
  apply bind_Ok_inv in Hrun as (cs & st2 & Hcs & [= <- <-]).
  pose proof (mapM_quiet _ _ (stringify_expr_quiet globals) _ _ _ Hcs) as ->.
  split; [done|].
  split; [apply (proj1 (Hlhs st)); by eexists|].
  split; [apply (proj1 (succeeds_all_supported _ st Hall)); by eexists|].
  simpl. by rewrite (mapM_Ok_length _ _ _ _ _ Hcs).
Qed.

(** X10: an expression is translated exactly when it is supported:
    when it is, its translation succeeds and leaves the state as it
    was, and when it is not, its translation fails. *)
Theorem translated_iff_supported node :
  ∀ st, succeeds (stringify_expr globals node) st ↔ supported node = true.
Proof.
  induction node as
    [ op values IHvalues | lhs IHlhs op rhs IHrhs | op operand IHoperand
    | lhs IHlhs ops comparators IHcomparators | func IHfunc args IHargs
    | n | s | constant | value IHvalue attr | value IHvalue sl IHsl
    | id | elts IHelts | elts IHelts | kind ];
    intros st; cbn [stringify_expr supported].
  - (* BoolOp *)
    rewrite succeeds_bind_ret
      by (apply mapM_quiet; intros x; apply stringify_expr_quiet).
    by apply succeeds_all_supported.
  - (* BinOp *)
    destruct (BIN_OP_FORMATS op) as [str_format|].
    + rewrite (succeeds_bind _ _ (succeeds (stringify_expr globals rhs) st));
        [|apply stringify_expr_quiet
         |intros lhs'; by apply succeeds_bind_ret, stringify_expr_quiet].
      rewrite !andb_true_iff, bool_decide_eq_true, IHlhs, IHrhs.
      split; [by intros [? ?]|by intros [[_ ?] ?]].
    + split; [by intros ?%succeeds_raise_error|].
      rewrite !andb_true_iff, bool_decide_eq_true. by intros [[[? [=]] _] _].
  - (* UnaryOp *)
    destruct op; cbn [UNARY_OP_FORMATS];
      by rewrite succeeds_bind_ret by apply stringify_expr_quiet.
  - (* Compare *)
    destruct ops as [|op [|op2 ops]].
    + split; [|done]. intros [text Hrun].
      apply bind_Ok_inv in Hrun as ([ops' values] & st1 & [= <- <- <-] & Hrun).
      discriminate Hrun.
    + cbn [compare_loop fmap list_fmap].
      destruct (COMPARE_OP_STR (OpClass op)) as [sym|] eqn:Hop.
      * rewrite !andb_true_iff, bool_decide_eq_true, Nat.leb_le.
        split.
        -- intros [text Hrun].
           apply bind_Ok_inv in Hrun as ([ops' values] & st1 & Hloop & Hjoin).
           apply bind_Ok_inv in Hloop as (ops1 & st2 & Hops & Hloop).
           rewrite (mapM_compare_lookup_single _ _ _ Hop) in Hops.
           injection Hops as <- <-.
           apply bind_Ok_inv in Hloop as (values1 & st3 & Hvalues & [= <- <- <-]).
           destruct (succeeds_operands _ _ _ IHlhs IHcomparators _ _ Hvalues)
             as (-> & Hl & Hcs & Hlen).
           destruct values1 as [|lhs' comparators']; [discriminate|].
           assert (length comparators' ≤ 1)%nat
             by (apply (proj1 (compare_join_single sym lhs' comparators' st));
                 by exists text).
           simpl in Hlen. repeat split; [by eexists|done|done|lia].
        -- intros [[[_ Hl] Hcs] Hlen].
           apply (proj2 (IHlhs st)) in Hl as [lhs' Hl].
           apply (proj2 (succeeds_all_supported _ st IHcomparators)) in Hcs
             as [comparators' Hcs].
           assert (length comparators' ≤ 1)%nat as Hlen'
             by (by rewrite (mapM_Ok_length _ _ _ _ _ Hcs)).
           apply (proj2 (compare_join_single sym lhs' comparators' st)) in Hlen'
             as [text Hjoin].
           exists text.
           erewrite bind_Ok
             by (erewrite bind_Ok
                   by exact (mapM_compare_lookup_single _ _ _ Hop);
                 erewrite bind_Ok
                   by (erewrite bind_Ok by exact Hl;
                       erewrite bind_Ok by exact Hcs; reflexivity);
                 reflexivity).
           exact Hjoin.
      * rewrite !andb_true_iff, bool_decide_eq_true. split.
        -- intros [text Hrun].
           apply bind_Ok_inv in Hrun as (? & ? & Hrun & _).
           by rewrite raise_error_run in Hrun.
        -- by intros [[[[? [=]] _] _] _].
    + split; [|done]. intros [text Hrun].
      by apply compare_chain_never_succeeds in Hrun.
  - (* Call *)
    rewrite (succeeds_bind _ _ (succeeds (stringify_expr globals func) st));
      [|apply mapM_quiet; intros x; apply stringify_expr_quiet
       |intros args'; by apply succeeds_bind_ret, stringify_expr_quiet].
    by rewrite andb_true_iff, IHfunc, (succeeds_all_supported _ st IHargs).
  - (* Num *) split; [done|]. intros _. apply succeeds_ret.
  - (* Str *) split; [by intros ?%succeeds_raise_error|done].
  - (* NameConstant *)
    split; [done|]. intros _. destruct constant; apply succeeds_ret.
  - (* Attribute *)
    by rewrite succeeds_bind_ret by apply stringify_expr_quiet.
  - (* Subscript *)
    destruct IHsl as [index IHindex| |].
    + rewrite (succeeds_bind _ _ (succeeds (stringify_expr globals index) st));
        [|apply stringify_expr_quiet
         |intros value'; by apply succeeds_bind_ret, stringify_expr_quiet].
      by rewrite andb_true_iff, IHvalue, IHindex.
    + split; [by intros ?%succeeds_raise_error|done].
    + split; [by intros ?%succeeds_raise_error|done].
  - (* Name *) split; [done|]. intros _. apply succeeds_ret.
  - (* List *)
    rewrite succeeds_bind_ret
      by (apply mapM_quiet; intros x; apply stringify_expr_quiet).
    by apply succeeds_all_supported.
  - (* Tuple *) split; [by intros ?%succeeds_raise_error|done].
  - (* OtherExpr *) split; [by intros ?%succeeds_raise_error|done].
Qed.

End supported.

(** ** The outcome of a translation does not depend on the state

    A property of computations that holds of the primitives and is
    kept by sequencing holds of every rule of the translator. *)

Section closed.

Context (P : ∀ A, M A → Prop).
Hypothesis P_ret : ∀ A (a : A), P _ (mret a).
Hypothesis P_bind :
  ∀ A B (m : M A) (f : A → M B), P _ m → (∀ a, P _ (f a)) → P _ (m ≫= f).
Hypothesis P_raise : ∀ A e, P _ (raise (A:=A) e).
Hypothesis P_raise_error :
  ∀ A node message, P _ (raise_error (A:=A) node message).
Context (globals : gmap string string).

Lemma closed_mapM {A B} (f : A → M B) l :
  list_all A (λ x, P _ (f x)) l → P _ (mapM f l).
Proof.
  induction 1 as [|x Hx l Hl IH].
  - apply P_ret.
  - rewrite mapM_cons. apply P_bind; [done|]. intros y.
    apply P_bind; [done|]. intros k. apply P_ret.
Qed.

Lemma closed_mapM_all {A B} (f : A → M B) l :
  (∀ x, P _ (f x)) → P _ (mapM f l).
Proof.
  intros Hf. apply closed_mapM. induction l; constructor; auto.
Qed.

Ltac closed_step :=
  match goal with
  | |- P _ (mret _) => apply P_ret
  | |- P _ (raise_error _ _) => apply P_raise_error
  | |- P _ (raise _) => apply P_raise
  | |- P _ (_ ≫= _) => apply P_bind; [ | intros ?]
  | |- P _ (mapM _ _) =>
      first [ apply closed_mapM; assumption
            | apply closed_mapM_all; intros ? ]
  | |- P _ (match ?x with _ => _ end) => destruct x
  | |- P _ (let '(_, _) := ?x in _) => destruct x
  | H : P _ ?m |- P _ ?m => exact H
  end.

Lemma closed_compare_lookup k : P _ (compare_lookup k).
Proof. unfold compare_lookup. repeat closed_step. Qed.

Lemma closed_compare_loop render_values rest ops values :
  P _ render_values →
  P _ (compare_loop render_values rest ops values).
Proof.
  intros Hv. revert ops values.
  induction rest as [|op rest IH]; intros ops values; simpl.
  - closed_step.
  - repeat closed_step;
      first [apply closed_compare_lookup | apply IH].
Qed.

Lemma closed_compare_pair ops item : P _ (compare_pair ops item).
Proof.
  destruct item as [index [lhs rhs]]. simpl. repeat closed_step.
Qed.

Lemma closed_compare_join ops values :
  P _ (compare_join ops values).
Proof.
  unfold compare_join. repeat closed_step.
  apply closed_compare_pair.
Qed.

Lemma closed_stringify_expr node :
  P _ (stringify_expr globals node).
Proof.
  induction node; simpl; unfold stringify_NameConstant;
    try (repeat closed_step; fail).
  - (* Compare *)
    closed_step.
    + apply closed_compare_loop. repeat closed_step.
    + match goal with p : _ * _ |- _ => destruct p end.
      apply closed_compare_join.
  - (* Subscript *)
    match goal with H : ast.slice_all _ _ _ |- _ => destruct H end;
      repeat closed_step.
Qed.

Lemma closed_stringify_annotation_node node :
  (∀ var_name, P _ (stringify_annotation_node globals node var_name))
  ∧ match node with
    | ast.Tuple (type_node :: _) =>
        ∀ var_name,
          P _ (stringify_annotation_node globals type_node var_name)
    | _ => True
    end.
Proof.
  induction node; (split; [intros var_name | try exact I]); simpl;
    unfold stringify_NameConstant;
    try (repeat closed_step; fail).
  - (* Subscript *)
    match goal with H : ast.slice_all _ _ _ |- _ => destruct H as [index [Hindex Htuple]| |] end;
      [| repeat closed_step ..].
    closed_step; [apply closed_stringify_expr; assumption|].
    repeat match goal with
           | |- P _ (if ?b then _ else _) => destruct b
           end;
      try (repeat closed_step; apply Hindex).
    destruct index; try (repeat closed_step; apply Hindex).
    destruct elts as [|type_node indices]; repeat closed_step.
    + apply Htuple.
    + apply closed_stringify_expr; assumption.
  - (* Tuple *)
    match goal with H : list_all _ _ _ |- _ => destruct H as [|? [H ?]] end;
      [exact I | exact H].
Qed.

Lemma closed_stringify_annotation node var_name :
  P _ (stringify_annotation globals node var_name).
Proof.
  destruct node as [node|]; simpl; [|closed_step].
  apply closed_stringify_annotation_node.
Qed.

Lemma closed_arguments_loop arg_count indent items args_str :
  P _ (arguments_loop globals arg_count indent items args_str).
Proof.
  revert args_str.
  induction items as [|[index arg] items IH]; intros args_str; simpl.
  - closed_step.
  - closed_step; [apply closed_stringify_annotation|].
    closed_step; [repeat closed_step|]. apply IH.
Qed.

Lemma closed_stringify_Arguments a indent :
  P _ (stringify_Arguments globals a indent).
Proof.
  unfold stringify_Arguments.
  do 3 (closed_step; [repeat closed_step|]).
  apply closed_arguments_loop.
Qed.

Lemma closed_decorators_loop items decorators :
  P _ (decorators_loop globals items decorators).
Proof.
  revert decorators.
  induction items as [|decorator items IH]; intros decorators; simpl.
  - closed_step.
  - closed_step; [apply closed_stringify_expr; assumption|].
    closed_step; [apply IH | closed_step].
Qed.

Lemma closed_stringify_function_signature node semicolon :
  P _ (stringify_function_signature globals node semicolon).
Proof.
  destruct node; simpl; try (repeat closed_step; fail).
  all: closed_step; [apply closed_stringify_annotation|].
  all: closed_step; [repeat closed_step|].
  all: closed_step; [apply closed_decorators_loop|].
  all: closed_step; [apply closed_stringify_Arguments|]; closed_step.
Qed.

Lemma closed_split_for_iter node :
  P _ (split_for_iter globals node).
Proof.
  unfold split_for_iter.
  closed_step; [apply closed_stringify_expr; assumption|].
  repeat closed_step.
Qed.

Lemma closed_for_step iter index step :
  P _ (for_step iter index step).
Proof. unfold for_step. repeat closed_step. Qed.

(** Statements also push, pop, extend and read scopes. *)
Hypothesis P_push_scope : P _ push_scope.
Hypothesis P_pop_scope : P _ pop_scope.
Hypothesis P_add_to_scope : ∀ var_name, P _ (add_to_scope var_name).
Hypothesis P_is_defined : ∀ var_name, P _ (is_defined var_name).

Lemma closed_is_defined var_name : P _ (is_defined var_name).
Proof. apply P_is_defined. Qed.

Lemma closed_stringify_block_of nodes_str indent :
  P _ nodes_str → P _ (stringify_block_of nodes_str indent).
Proof. intros H. unfold stringify_block_of. repeat closed_step. Qed.

Lemma closed_stringify_body_of block indent :
  P _ block → P _ (stringify_body_of block indent).
Proof. intros H. unfold stringify_body_of. repeat closed_step. Qed.

Lemma closed_stringify_stmt node :
  ∀ indent, P _ (stringify_stmt globals node indent).
Proof.
  assert (Hbody : ∀ body : list ast.stmt,
    list_all ast.stmt
      (λ s, ∀ indent, P _ (stringify_stmt globals s indent)) body →
    ∀ indent,
      P _
        (stringify_body_of
           (stringify_block_of
              (mapM (λ node, stringify_stmt globals node
                               (indent +:+ INDENT_TAB)) body)
              (indent +:+ INDENT_TAB)) indent)).
  { intros body Hall indent. apply closed_stringify_body_of,
      closed_stringify_block_of, closed_mapM; try assumption.
    induction Hall; constructor; auto. }
  induction node as
    [ name args body IHbody decorator_list returns
    | name args body IHbody decorator_list returns
    | rvalue | targets avalue | target op avalue | target annotation ovalue
    | target iter body IHbody orelse IHorelse
    | test body IHbody orelse IHorelse
    | test body IHbody orelse IHorelse
    | evalue | | | | kind ];
    intros indent; cbn [stringify_stmt].
  - (* FunctionDef *)
    closed_step; [apply closed_stringify_function_signature|].
    closed_step; [by apply Hbody|]. closed_step.
  - (* AsyncFunctionDef *)
    closed_step.
  - (* Return *)
    destruct rvalue; repeat closed_step.
    apply closed_stringify_expr; assumption.
  - (* Assign *)
    destruct targets as [|var [|]]; [closed_step | | closed_step].
    closed_step; [apply closed_stringify_expr; assumption|].
    closed_step; [apply closed_is_defined|].
    repeat closed_step. apply closed_stringify_expr; assumption.
  - (* AugAssign *)
    repeat closed_step; apply closed_stringify_expr; assumption.
  - (* AnnAssign *)
    closed_step; [apply closed_stringify_expr; assumption|].
    closed_step; [apply P_add_to_scope|].
    closed_step; [apply closed_stringify_annotation_node|].
    repeat closed_step. apply closed_stringify_expr; assumption.
  - (* For *)
    closed_step; [repeat closed_step|].
    closed_step; [apply closed_stringify_expr; assumption|].
    closed_step; [apply closed_split_for_iter|].
    match goal with p : bound * bound * bound |- _ =>
      destruct p as [[start end_] step] end.
    closed_step; [apply closed_for_step|].
    closed_step; [by apply Hbody|]. closed_step.
  - (* While *)
    destruct orelse; [|closed_step].
    closed_step; [apply closed_stringify_expr; assumption|].
    closed_step; [by apply Hbody|]. closed_step.
  - (* If *)
    closed_step; [apply closed_stringify_expr; assumption|].
    closed_step; [by apply Hbody|].
    destruct IHorelse as [|elif Helif rest Hrest]; [closed_step|].
    assert (Helse : ∀ indent, P _
      (stringify_body_of
         (stringify_block_of
            (mapM (λ node, stringify_stmt globals node
                             (indent +:+ INDENT_TAB))
               (elif :: rest))
            (indent +:+ INDENT_TAB)) indent))
      by (intros; apply Hbody; by constructor).
    destruct elif; try (closed_step; [apply Helse | closed_step]).
    destruct rest; [|closed_step; [apply Helse | closed_step]].
    closed_step; [apply Helif | closed_step].
  - (* Expr *)
    apply closed_stringify_expr; assumption.
  - closed_step.
  - closed_step.
  - closed_step.
  - closed_step.
Qed.

Lemma closed_stringify_block nodes indent :
  P _ (stringify_block globals nodes indent).
Proof.
  apply closed_stringify_block_of, closed_mapM_all; try assumption.
  intros node. apply closed_stringify_stmt.
Qed.

Lemma closed_stringify_node node indent :
  P _ (stringify_node globals node indent).
Proof.
  destruct node as [body|s|e|[value| |]| | | | | |]; simpl;
    try closed_step.
  - apply closed_stringify_block.
  - apply closed_stringify_stmt.
  - apply closed_stringify_expr; assumption.
  - apply closed_stringify_expr; assumption.
Qed.


End closed.

(** A computation whose result, and whose scope stack afterwards,
    depend on the state through the scope stack only: the module
    globals, where the last error is kept, are written and never read. *)
Definition scoped {A} (m : M A) : Prop :=
  ∀ st1 st2,
    scope_stack st1 = scope_stack st2 →
    (m st1).1 = (m st2).1 ∧ scope_stack (m st1).2 = scope_stack (m st2).2.

Lemma scoped_ret A (a : A) : scoped (mret a).
Proof. by intros st1 st2 Hst. Qed.

Lemma scoped_bind A B (m : M A) (f : A → M B) :
  scoped m → (∀ a, scoped (f a)) → scoped (m ≫= f).
Proof.
  intros Hm Hf st1 st2 Hst. rewrite !bind_run.
  destruct (Hm st1 st2 Hst) as [Hr Hs].
  destruct (m st1) as [r1 s1], (m st2) as [r2 s2]. simpl in Hr, Hs. subst r2.
  destruct r1 as [a|e]; [by apply Hf|done].
Qed.

Lemma scoped_raise A e : scoped (raise (A:=A) e).
Proof. by intros st1 st2 Hst. Qed.

Lemma scoped_raise_error A node message :
  scoped (raise_error (A:=A) node message).
Proof.
  intros st1 st2 Hst. rewrite !raise_error_run. split; [done|].
  exact Hst.
Qed.

Lemma scoped_push_scope : scoped push_scope.
Proof.
  intros st1 st2 Hst. unfold push_scope. split; [done|]. simpl.
  by rewrite Hst.
Qed.

Lemma scoped_pop_scope : scoped pop_scope.
Proof.
  intros st1 st2 Hst. unfold pop_scope. rewrite <-Hst.
  destruct (scope_stack st1) eqn:Hstack; simpl; [|done].
  split; [done|]. congruence.
Qed.

Lemma scoped_add_to_scope var_name : scoped (add_to_scope var_name).
Proof.
  intros st1 st2 Hst. unfold add_to_scope. rewrite <-Hst.
  destruct (last (scope_stack st1)); simpl; [done|].
  split; [done|]. congruence.
Qed.

Lemma scoped_is_defined var_name : scoped (is_defined var_name).
Proof.
  intros st1 st2 Hst. unfold is_defined. split; [|done]. simpl.
  by rewrite Hst.
Qed.

Lemma scoped_stringify_node globals node indent :
  scoped (stringify_node globals node indent).
Proof.
  apply (closed_stringify_node (@scoped));
    auto using scoped_ret, scoped_bind, scoped_raise, scoped_raise_error,
      scoped_push_scope, scoped_pop_scope, scoped_add_to_scope,
      scoped_is_defined.
Qed.

Lemma scoped_stringify_function_signature globals node semicolon :
  scoped (stringify_function_signature globals node semicolon).
Proof.
  apply (closed_stringify_function_signature (@scoped));
    auto using scoped_ret, scoped_bind, scoped_raise, scoped_raise_error.
Qed.

Lemma scoped_on_new_instance {A} (m : M A) :
  scoped m → scoped (on_new_instance m).
Proof.
  intros Hm st1 st2 Hst. unfold on_new_instance.
  destruct
    (Hm {| scope_stack := []; module_globals := module_globals st1 |}
        {| scope_stack := []; module_globals := module_globals st2 |}
        eq_refl) as [Hr _].
  destruct (m _) as [r1 s1], (m _) as [r2 s2]. by simpl in *.
Qed.

Lemma scoped_to_str self : scoped (to_str self).
Proof.
  apply scoped_bind; [apply scoped_stringify_node|]. intros root_str.
  apply scoped_ret.
Qed.

Lemma scoped_helper_signature oklifier : scoped (helper_signature oklifier).
Proof.
  unfold helper_signature.
  destruct (root oklifier) as [body| | | | | | | | |];
    try apply scoped_raise.
  destruct body; [apply scoped_raise|].
  apply scoped_stringify_function_signature.
Qed.

Lemma scoped_helper_entry make : scoped make → scoped (helper_entry make).
Proof.
  intros Hmake. apply scoped_on_new_instance.
  apply scoped_bind; [done|]. intros oklifier.
  apply scoped_bind; [apply scoped_helper_signature|]. intros sig.
  apply scoped_bind; [apply scoped_to_str|]. intros src. apply scoped_ret.
Qed.

Lemma scoped_check_builtins builtins : scoped (check_builtins builtins).
Proof.
  induction builtins as [|builtin builtins IH]; simpl; [apply scoped_ret|].
  case_bool_decide; [done|apply scoped_raise].
Qed.

Lemma scoped_inspect_globals {F} (Oklifier_ : F → M Oklifier) items :
  list_all _ (prod_all _ (λ _, ()%type) _
                (value_all _ (λ func, scoped (Oklifier_ func)))) items →
  ∀ globals functions,
    scoped (inspect_globals Oklifier_ items globals functions).
Proof.
  induction 1 as [|[name value] Hitem items Hitems IH];
    intros globals functions; cbn [inspect_globals]; [apply scoped_ret|].
  destruct (truthy _); [apply IH|].
  inversion Hitem as [? _ ? Hvalue]; subst.
  destruct Hvalue as [type|func Hfunc].
  - case_bool_decide; [apply IH|apply scoped_raise].
  - apply scoped_bind; [by apply scoped_helper_entry|]. intros entry.
    apply IH.
Qed.

Lemma scoped_Oklifier_of_function func : scoped (Oklifier_of_function func).
Proof.
  induction func as [closure_globals IH closure_builtins source_body].
  cbn [Oklifier_of_function]. unfold inspect_function_closure.
  apply scoped_bind; [|intros [globals functions]; apply scoped_ret].
  apply scoped_bind; [by apply scoped_inspect_globals|].
  intros [globals functions].
  apply scoped_bind; [apply scoped_check_builtins|].
  intros []. apply scoped_ret.
Qed.

Lemma scoped_py2okl obj : scoped (py2okl obj).
Proof.
  unfold py2okl. apply scoped_on_new_instance.
  apply scoped_bind; [|intros self; apply scoped_to_str].
  destruct obj; simpl.
  - apply scoped_ret.
  - apply scoped_Oklifier_of_function.
  - apply scoped_raise.
Qed.

(** X11: what a translation returns, the text or the error, does not
    depend on what was translated before.  Of the state, a statement
    reads the scope stack only, and [py2okl] starts from a scope stack
    of its own: whatever the scopes and the last error left by earlier
    calls, [py2okl] gives the same result for the same object, and a
    list of objects is translated as each of them alone would be. *)
Theorem translation_ignores_history :
  (∀ globals node indent st1 st2,
     scope_stack st1 = scope_stack st2 →
     (stringify_node globals node indent st1).1
     = (stringify_node globals node indent st2).1)
  ∧ (∀ obj st1 st2, (py2okl obj st1).1 = (py2okl obj st2).1)
  ∧ (∀ first second st,
       (py2okl second (py2okl first st).2).1 = (py2okl second st).1).
Proof.
  assert (Hpy : ∀ obj st1 st2, (py2okl obj st1).1 = (py2okl obj st2).1).
  { intros obj st1 st2. unfold py2okl, on_new_instance.
    pose proof (scoped_bind _ _ (Oklifier_init obj) to_str) as Hm.
    destruct (Hm ltac:(destruct obj; simpl;
                         [apply scoped_ret|apply scoped_Oklifier_of_function
                         |apply scoped_raise])
                 scoped_to_str
                 {| scope_stack := []; module_globals := module_globals st1 |}
                 {| scope_stack := []; module_globals := module_globals st2 |}
                 eq_refl) as [Hr _].
    destruct ((Oklifier_init obj ≫= to_str) _) as [r1 s1],
             ((Oklifier_init obj ≫= to_str) _) as [r2 s2]. exact Hr. }
  split; [|split].
  - intros globals node indent st1 st2 Hst.
    by apply scoped_stringify_node.
  - exact Hpy.
  - intros first second st. apply Hpy.
Qed.
